(** * Turjuman (Arabic book helper): the page request client and the
      page accumulator of [App.tsx], verified on a shallow embedding.

    Layout of the development:
    - [Js]       strings as sequences of UTF-16 code units, JSON values and
                 the runtime's [JSON.parse];
    - [Types]    the interfaces of [types.ts];
    - [Gemini]   [processArabicPdf] of [services/geminiService.ts];
    - [App]      the state and the handlers of the [App] component, and the
                 event loop that runs them;
    - [Samples]  files, replies and sessions used as examples;
    - [JsFacts], [AppFacts]  the parser never runs out of fuel; what holds
                 in every session that can be reached;
    - the properties of the page accumulator, of the page request client
      and of the session. *)

From Stdlib Require Import List String Ascii ZArith NArith Bool Lia Arith.
From Stdlib Require Import DecimalString DecimalPos DecimalZ.
Import ListNotations.

Local Open Scope string_scope.
Local Open Scope list_scope.
Local Open Scope Z_scope.

(* ================================================================== *)
(** ** JavaScript strings and JSON values *)
(* ================================================================== *)

Module Js.

(** A JavaScript string is a sequence of UTF-16 code units. *)
Definition jsstring := list N.

(** The string whose code units are the character codes of an ASCII
    literal. *)
Definition jstr (s : string) : jsstring :=
  map N_of_ascii (list_ascii_of_string s).

Definition jsstring_eqb (a b : jsstring) : bool :=
  if list_eq_dec N.eq_dec a b then true else false.

(** A JSON number keeps its exact decimal value [mantissa * 10^exp10].
    (The runtime rounds it to a double; for the integral page numbers
    of this program, all far below 2^53, the two agree.) *)
Record jnumber := { mantissa : Z; exp10 : Z }.

#[warnings="-register-all"]
Inductive json :=
| JNull
| JBool (b : bool)
| JNumber (n : jnumber)
| JString (s : jsstring)
| JArray (items : list json)
| JObject (members : list (jsstring * json)).

(** Members are kept in the order of the text; as in JavaScript, a later
    member of the same name wins. *)
Fixpoint get_last (k : jsstring) (ms : list (jsstring * json))
         (found : option json) : option json :=
  match ms with
  | [] => found
  | (k', v) :: ms' =>
      get_last k ms' (if jsstring_eqb k k' then Some v else found)
  end.

(** [v.k] for an own data property; [None] is [undefined]. *)
Definition get (k : string) (v : json) : option json :=
  match v with
  | JObject ms => get_last (jstr k) ms None
  | _ => None
  end.

(** The integer a number denotes, when it denotes one. *)
Definition jnumber_to_Z (n : jnumber) : option Z :=
  if 0 <=? exp10 n then Some (mantissa n * 10 ^ exp10 n)
  else
    let d := 10 ^ (- exp10 n) in
    if mantissa n mod d =? 0 then Some (mantissa n / d) else None.

(* ------------------------------------------------------------------ *)
(** *** [JSON.parse] (ECMA-404 grammar, as the runtime implements it) *)

Inductive presult (A : Type) :=
| POk (a : A) (rest : jsstring)
| PSyntaxError
| POutOfFuel.
Arguments POk {A} a rest.
Arguments PSyntaxError {A}.
Arguments POutOfFuel {A}.

Definition is_ws (c : N) : bool :=
  ((c =? 32) || (c =? 9) || (c =? 10) || (c =? 13))%N.

Fixpoint skip_ws (s : jsstring) : jsstring :=
  match s with
  | c :: s' => if is_ws c then skip_ws s' else s
  | [] => []
  end.

Definition is_digit (c : N) : bool := ((48 <=? c) && (c <=? 57))%N.

Definition digit_val (c : N) : Z := Z.of_N (c - 48).

(** The longest run of digits at the head of [s], and what follows. *)
Fixpoint take_digits (s : jsstring) : list N * jsstring :=
  match s with
  | c :: s' =>
      if is_digit c
      then let '(ds, r) := take_digits s' in (c :: ds, r)
      else ([], s)
  | [] => ([], [])
  end.

Definition digits_val (ds : list N) : Z :=
  fold_left (fun acc c => 10 * acc + digit_val c) ds 0.

Definition hex_val (c : N) : option N :=
  (if (48 <=? c) && (c <=? 57) then Some (c - 48)
   else if (65 <=? c) && (c <=? 70) then Some (c - 55)
   else if (97 <=? c) && (c <=? 102) then Some (c - 87)
   else None)%N.

Definition hex4 (a b c d : N) : option N :=
  match hex_val a, hex_val b, hex_val c, hex_val d with
  | Some x, Some y, Some z, Some w => Some (((x * 16 + y) * 16 + z) * 16 + w)%N
  | _, _, _, _ => None
  end.

Definition unescape (c : N) : option N :=
  (if c =? 34 then Some 34          (* quotation mark *)
   else if c =? 92 then Some 92     (* reverse solidus *)
   else if c =? 47 then Some 47     (* solidus *)
   else if c =? 98 then Some 8      (* b: backspace *)
   else if c =? 102 then Some 12    (* f: form feed *)
   else if c =? 110 then Some 10    (* n: line feed *)
   else if c =? 114 then Some 13    (* r: carriage return *)
   else if c =? 116 then Some 9     (* t: tab *)
   else None)%N.

(** The characters of a string literal after its opening quote, up to
    and including the closing quote. *)
Fixpoint parse_chars (s : jsstring) : option (jsstring * jsstring) :=
  match s with
  | [] => None
  | c :: s' =>
      if (c =? 34)%N then Some ([], s')
      else if (c =? 92)%N then
        match s' with
        | e :: s'' =>
            if (e =? 117)%N then
              match s'' with
              | h1 :: h2 :: h3 :: h4 :: s3 =>
                  match hex4 h1 h2 h3 h4, parse_chars s3 with
                  | Some u, Some (cs, r) => Some (u :: cs, r)
                  | _, _ => None
                  end
              | _ => None
              end
            else
              match unescape e, parse_chars s'' with
              | Some u, Some (cs, r) => Some (u :: cs, r)
              | _, _ => None
              end
        | [] => None
        end
      else if (c <? 32)%N then None
      else
        match parse_chars s' with
        | Some (cs, r) => Some (c :: cs, r)
        | None => None
        end
  end.

(** [s] without its first code unit, when that is [c]. *)
Definition eat (c : N) (s : jsstring) : option jsstring :=
  match s with
  | x :: r => if (x =? c)%N then Some r else None
  | [] => None
  end.

(** One or more digits. *)
Definition take_digits1 (s : jsstring) : option (list N * jsstring) :=
  match take_digits s with
  | ([], _) => None
  | (d :: ds, r) => Some (d :: ds, r)
  end.

(** The fraction of a number: a dot and one or more digits, or nothing. *)
Definition parse_fraction (s : jsstring) : option (list N * jsstring) :=
  match eat 46 s with
  | Some r => take_digits1 r
  | None => Some ([], s)
  end.

(** The exponent of a number: e or E, an optional sign and one or more
    digits, or nothing. *)
Definition parse_exponent (s : jsstring) : option (Z * jsstring) :=
  match s with
  | c :: r =>
      if ((c =? 101) || (c =? 69))%N then
        let '(eneg, r1) :=
          match eat 45 r, eat 43 r with
          | Some r', _ => (true, r')
          | None, Some r' => (false, r')
          | None, None => (false, r)
          end in
        match take_digits1 r1 with
        | Some (ep, s') =>
            Some ((if eneg then - digits_val ep else digits_val ep), s')
        | None => None
        end
      else Some (0, s)
  | [] => Some (0, s)
  end.

(** A number: an optional minus sign; an integer part that is a single
    zero or starts with a non-zero digit; an optional fraction; an
    optional exponent. *)
Definition parse_number (s : jsstring) : option (jnumber * jsstring) :=
  let '(neg, s1) :=
    match eat 45 s with
    | Some r => (true, r)
    | None => (false, s)
    end in
  match take_digits1 s1 with
  | None => None
  | Some (ip, s2) =>
      if (hd 0%N ip =? 48)%N && negb (Nat.eqb (List.length ip) 1) then None
      else
        match parse_fraction s2 with
        | None => None
        | Some (fp, s3) =>
            match parse_exponent s3 with
            | None => None
            | Some (e, s4) =>
                let m := digits_val (ip ++ fp) in
                Some ({| mantissa := if neg then - m else m;
                         exp10 := e - Z.of_nat (List.length fp) |}, s4)
            end
        end
  end.

(** [s] starts with the code units of [lit]; what follows them. *)
Fixpoint strip_prefix (lit s : jsstring) : option jsstring :=
  match lit, s with
  | [], _ => Some s
  | a :: lit', b :: s' => if (a =? b)%N then strip_prefix lit' s' else None
  | _ :: _, [] => None
  end.

(** [true], [false] or [null]. *)
Definition parse_literal (s : jsstring) : option (json * jsstring) :=
  match strip_prefix (jstr "true") s, strip_prefix (jstr "false") s,
        strip_prefix (jstr "null") s with
  | Some r, _, _ => Some (JBool true, r)
  | _, Some r, _ => Some (JBool false, r)
  | _, _, Some r => Some (JNull, r)
  | _, _, _ => None
  end.

(** A string literal, opening quotation mark included. *)
Definition parse_string (s : jsstring) : option (jsstring * jsstring) :=
  match eat 34 s with
  | Some r => parse_chars r
  | None => None
  end.

Fixpoint parse_value (fuel : nat) (s : jsstring) {struct fuel}
  : presult json :=
  match fuel with
  | O => POutOfFuel
  | S fuel' =>
      match skip_ws s with
      | [] => PSyntaxError
      | c :: r =>
          if (c =? 123)%N then                      (* left brace *)
            match eat 125 (skip_ws r) with
            | Some r' => POk (JObject []) (skip_ws r')
            | None =>
                match parse_members fuel' r with
                | POk ms r' => POk (JObject ms) (skip_ws r')
                | PSyntaxError => PSyntaxError
                | POutOfFuel => POutOfFuel
                end
            end
          else if (c =? 91)%N then                  (* left bracket *)
            match eat 93 (skip_ws r) with
            | Some r' => POk (JArray []) (skip_ws r')
            | None =>
                match parse_elements fuel' r with
                | POk vs r' => POk (JArray vs) (skip_ws r')
                | PSyntaxError => PSyntaxError
                | POutOfFuel => POutOfFuel
                end
            end
          else if (c =? 34)%N then                  (* string *)
            match parse_chars r with
            | Some (cs, r') => POk (JString cs) (skip_ws r')
            | None => PSyntaxError
            end
          else if (c =? 45)%N || is_digit c then    (* number *)
            match parse_number (c :: r) with
            | Some (n, r') => POk (JNumber n) (skip_ws r')
            | None => PSyntaxError
            end
          else
            match parse_literal (c :: r) with
            | Some (v, r') => POk v (skip_ws r')
            | None => PSyntaxError
            end
      end
  end

(** One or more values separated by commas, then the closing bracket. *)
with parse_elements (fuel : nat) (s : jsstring) {struct fuel}
  : presult (list json) :=
  match fuel with
  | O => POutOfFuel
  | S fuel' =>
      match parse_value fuel' s with
      | POk v r =>
          match eat 93 r, eat 44 r with
          | Some r', _ => POk [v] r'
          | None, Some r' =>
              match parse_elements fuel' r' with
              | POk vs r'' => POk (v :: vs) r''
              | PSyntaxError => PSyntaxError
              | POutOfFuel => POutOfFuel
              end
          | None, None => PSyntaxError
          end
      | PSyntaxError => PSyntaxError
      | POutOfFuel => POutOfFuel
      end
  end

(** One or more [string : value] members separated by commas, then the
    closing brace. *)
with parse_members (fuel : nat) (s : jsstring) {struct fuel}
  : presult (list (jsstring * json)) :=
  match fuel with
  | O => POutOfFuel
  | S fuel' =>
      match parse_string (skip_ws s) with
      | Some (k, r1) =>
          match eat 58 (skip_ws r1) with
          | Some r2 =>
              match parse_value fuel' r2 with
              | POk v r3 =>
                  match eat 125 r3, eat 44 r3 with
                  | Some r4, _ => POk [(k, v)] r4
                  | None, Some r4 =>
                      match parse_members fuel' r4 with
                      | POk ms r5 => POk ((k, v) :: ms) r5
                      | PSyntaxError => PSyntaxError
                      | POutOfFuel => POutOfFuel
                      end
                  | None, None => PSyntaxError
                  end
              | PSyntaxError => PSyntaxError
              | POutOfFuel => POutOfFuel
              end
          | None => PSyntaxError
          end
      | None => PSyntaxError
      end
  end.

(** Fuel that always suffices (see [parse_value_fuel]). *)
Definition fuel_for (s : jsstring) : nat := S (2 * List.length s).

(** [JSON.parse(text)]: [None] is a thrown [SyntaxError]. *)
Definition JSON_parse (text : jsstring) : option json :=
  match parse_value (fuel_for text) text with
  | POk v [] => Some v
  | _ => None
  end.

End Js.


(* ================================================================== *)
(** ** [types.ts] *)
(* ================================================================== *)

Module Types.
Import Js.

Record TranslationPair := {
  arabic : jsstring;
  english : jsstring;
  numberPronunciation : option jsstring
}.

(** [currentPage] is a JavaScript number; the page numbers of this
    program are integers and are modelled in [Z]. *)
Record ProcessingResult := {
  title : option jsstring;
  author : option jsstring;
  content : list TranslationPair;
  currentPage : Z;
  hasMore : bool
}.

(** The values on which the unchecked cast [as ProcessingResult] tells
    the truth: a JSON value read at the declared type, [None] when it
    does not have that type. *)
Definition as_optional_string (v : option json) : option (option jsstring) :=
  match v with
  | None => Some None
  | Some (JString s) => Some (Some s)
  | Some _ => None
  end.

Definition as_TranslationPair (v : json) : option TranslationPair :=
  match v with
  | JObject _ =>
      match get "arabic" v, get "english" v,
            as_optional_string (get "numberPronunciation" v) with
      | Some (JString a), Some (JString e), Some np =>
          Some {| arabic := a; english := e; numberPronunciation := np |}
      | _, _, _ => None
      end
  | _ => None
  end.

Fixpoint as_all {A : Type} (f : json -> option A) (vs : list json)
  : option (list A) :=
  match vs with
  | [] => Some []
  | v :: vs' =>
      match f v, as_all f vs' with
      | Some a, Some l => Some (a :: l)
      | _, _ => None
      end
  end.

Definition as_ProcessingResult (v : json) : option ProcessingResult :=
  match v with
  | JObject _ =>
      match as_optional_string (get "title" v),
            as_optional_string (get "author" v),
            get "content" v, get "currentPage" v, get "hasMore" v with
      | Some t, Some a, Some (JArray items), Some (JNumber n),
        Some (JBool h) =>
          match as_all as_TranslationPair items, jnumber_to_Z n with
          | Some c, Some p =>
              Some {| title := t; author := a; content := c;
                      currentPage := p; hasMore := h |}
          | _, _ => None
          end
      | _, _, _, _, _ => None
      end
  | _ => None
  end.

End Types.

(* ================================================================== *)
(** ** [services/geminiService.ts] *)
(* ================================================================== *)

Module Gemini.
Import Js Types.

(** The shapes of [Type] the response schema uses. *)
#[warnings="-register-all"]
Inductive Schema :=
| STRING
| INTEGER
| BOOLEAN
| ARRAY (items : Schema)
| OBJECT (properties : list (string * Schema)) (required : list string).

(** The [items] of [content] in the [responseSchema]. *)
Definition content_items : Schema :=
  OBJECT [("arabic", STRING);
          ("english", STRING);
          ("numberPronunciation", STRING)]
         ["arabic"; "english"].

(** The [responseSchema] of the request. *)
Definition responseSchema : Schema :=
  OBJECT
    [("title", STRING);
     ("author", STRING);
     ("content", ARRAY content_items);
     ("currentPage", INTEGER);
     ("hasMore", BOOLEAN)]
    ["content"; "currentPage"; "hasMore"].

Definition is_some {A : Type} (o : option A) : bool :=
  match o with Some _ => true | None => false end.

(** What the schema asks of a reply: every required property is there
    and every declared property that is there has its declared type. *)
Fixpoint conforms (sch : Schema) (v : json) {struct sch} : bool :=
  match sch, v with
  | STRING, JString _ => true
  | INTEGER, JNumber n => is_some (jnumber_to_Z n)
  | BOOLEAN, JBool _ => true
  | ARRAY it, JArray vs => forallb (conforms it) vs
  | OBJECT props req, JObject _ =>
      forallb (fun k => is_some (get k v)) req
      && (fix props_ok (ps : list (string * Schema)) : bool :=
            match ps with
            | [] => true
            | (k, s) :: ps' =>
                match get k v with
                | None => true
                | Some x => conforms s x
                end && props_ok ps'
            end) props
  | _, _ => false
  end.

(** [`${n}`] for an integral number: its digits, as the runtime prints
    every integer below 10^21. *)
Definition Number_toString (n : Z) : jsstring :=
  jstr (NilZero.string_of_int (Z.to_int n)).

(** A literal between quotation marks. *)
Definition quoted (s : string) : jsstring := 34%N :: jstr s ++ [34%N].

Fixpoint unlines (ls : list jsstring) : jsstring :=
  match ls with
  | [] => []
  | [l] => l
  | l :: ls' => l ++ 10%N :: unlines ls'
  end.

(** The template literal [prompt]. *)
Definition prompt (pageNumber : Z) : jsstring :=
  unlines
    [ [];
      jstr "    You are an expert Arabic linguist and translator. ";
      jstr "    Analyze the attached Arabic PDF book.";
      jstr "    ";
      jstr "    TASK:";
      jstr "    1. Focus ONLY on page " ++ Number_toString pageNumber
        ++ jstr " of the PDF.";
      jstr "    2. Transcribe the text from this page accurately.";
      jstr "    3. Ensure the Arabic text has COMPLETE TASHKEEL (vocalization/diacritics).";
      jstr "    4. Translate each sentence into clear English.";
      jstr "    5. If a sentence contains numbers (dates, quantities, etc.), provide the Arabic WORD pronunciation for those numbers with full tashkeel in a 'numberPronunciation' field.";
      jstr "    6. Determine if there is a next page (page "
        ++ Number_toString (pageNumber + 1) ++ jstr ") in the document.";
      jstr "    ";
      jstr "    OUTPUT FORMAT:";
      jstr "    Provide the output as a JSON object:";
      jstr "    {";
      jstr "      " ++ quoted "title" ++ jstr ": " ++ quoted "Book Title"
        ++ jstr ",";
      jstr "      " ++ quoted "author" ++ jstr ": " ++ quoted "Author Name"
        ++ jstr ",";
      jstr "      " ++ quoted "content" ++ jstr ": [{" ++ quoted "arabic"
        ++ jstr ": " ++ quoted "..." ++ jstr ", " ++ quoted "english"
        ++ jstr ": " ++ quoted "..." ++ jstr ", "
        ++ quoted "numberPronunciation" ++ jstr ": "
        ++ quoted "optional string if numbers exist" ++ jstr "}],";
      jstr "      " ++ quoted "currentPage" ++ jstr ": "
        ++ Number_toString pageNumber ++ jstr ",";
      jstr "      " ++ quoted "hasMore" ++ jstr ": true/false";
      jstr "    }";
      jstr "  " ].

(** The argument of [ai.models.generateContent]. [data] is [None] when
    the caller passes [undefined]. *)
Record Request := {
  model : string;
  text : jsstring;
  mimeType : string;
  data : option jsstring;
  responseMimeType : string;
  schema : Schema
}.

Definition request (base64Data : option jsstring) (pageNumber : Z)
  : Request :=
  {| model := "gemini-3-flash-preview";
     text := prompt pageNumber;
     mimeType := "application/pdf";
     data := base64Data;
     responseMimeType := "application/json";
     schema := responseSchema |}.

(** What awaiting [generateContent] gives: the call rejects, or it
    resolves to a response whose [text] is a string or [undefined]. *)
Inductive Response :=
| Threw
| Replied (text : option jsstring).

(** The external generation service. *)
Definition Service := Request -> Response.

Inductive Thrown :=
| RequestError                 (* what [generateContent] rejected with *)
| Error (message : string).

Definition ResponseParseError : Thrown :=
  Error "Failed to process the PDF content.".

Inductive Promise (A : Type) :=
| Resolved (a : A)
| Rejected (e : Thrown).
Arguments Resolved {A} a.
Arguments Rejected {A} e.

(** [t || d]: [undefined] and the empty string are falsy. *)
Definition or_default (t : option jsstring) (d : jsstring) : jsstring :=
  match t with
  | None | Some [] => d
  | Some s => s
  end.

(** The [try] block of [processArabicPdf], run on the awaited response. *)
Definition parse_response (r : Response) : Promise json :=
  match r with
  | Threw => Rejected RequestError
  | Replied t =>
      match JSON_parse (or_default t (jstr "{}")) with
      | Some v => Resolved v
      | None => Rejected ResponseParseError
      end
  end.

Definition processArabicPdf (ai : Service) (base64Data : option jsstring)
           (pageNumber : Z) : Promise json :=
  parse_response (ai (request base64Data pageNumber)).

End Gemini.


(* ================================================================== *)
(** ** [App.tsx] *)
(* ================================================================== *)

Module App.
Import Js Types Gemini.

(** The five [useState] cells of the component. *)
Record State := {
  isUploading : bool;
  isLoadingNext : bool;
  result : option ProcessingResult;
  currentPdfBase64 : option jsstring;
  error : option string
}.

Definition initial : State :=
  {| isUploading := false; isLoadingNext := false; result := None;
     currentPdfBase64 := None; error := None |}.

Definition setIsUploading (b : bool) (st : State) : State :=
  {| isUploading := b; isLoadingNext := isLoadingNext st;
     result := result st; currentPdfBase64 := currentPdfBase64 st;
     error := error st |}.

Definition setIsLoadingNext (b : bool) (st : State) : State :=
  {| isUploading := isUploading st; isLoadingNext := b;
     result := result st; currentPdfBase64 := currentPdfBase64 st;
     error := error st |}.

(** [setResult] takes an updater, as in [setResult(prev => ...)];
    [setResult(v)] is [setResult (fun _ => v)]. *)
Definition setResult
           (f : option ProcessingResult -> option ProcessingResult)
           (st : State) : State :=
  {| isUploading := isUploading st; isLoadingNext := isLoadingNext st;
     result := f (result st); currentPdfBase64 := currentPdfBase64 st;
     error := error st |}.

Definition setCurrentPdfBase64 (d : option jsstring) (st : State) : State :=
  {| isUploading := isUploading st; isLoadingNext := isLoadingNext st;
     result := result st; currentPdfBase64 := d; error := error st |}.

Definition setError (e : option string) (st : State) : State :=
  {| isUploading := isUploading st; isLoadingNext := isLoadingNext st;
     result := result st; currentPdfBase64 := currentPdfBase64 st;
     error := e |}.

(** The file the input hands over: its declared media type. Its bytes
    are seen only through the data URL the reader later produces. *)
Record File := { type : jsstring }.

(** Asynchronous work a handler has started and that has not called
    back yet. [NextPage] keeps [nextPage], which the continuation of
    [loadNextPage] holds in its closure. *)
Inductive Pending :=
| Reading (file : File)
| FirstPage (base64Data : option jsstring)
| NextPage (base64Data : jsstring) (nextPage : Z).

(** The request a pending operation has sent to the service. *)
Definition request_of (p : Pending) : option Request :=
  match p with
  | Reading _ => None
  | FirstPage b => Some (request b 1)
  | NextPage b n => Some (request (Some b) n)
  end.

Fixpoint requests_of (ps : list Pending) : list Request :=
  match ps with
  | [] => []
  | p :: ps' =>
      match request_of p with
      | Some r => r :: requests_of ps'
      | None => requests_of ps'
      end
  end.

(** [s.split(sep)] for a one-character separator. *)
Fixpoint split (sep : N) (s : jsstring) : list jsstring :=
  match s with
  | [] => [[]]
  | c :: s' =>
      if (c =? sep)%N then [] :: split sep s'
      else
        match split sep s' with
        | h :: t => (c :: h) :: t
        | [] => [[c]]
        end
  end.

(** [handleFileUpload]: the new state and the work it starts.
    [reader_throws] says whether creating the reader or starting the
    read throws, which the [catch] of the handler turns into a message. *)
Definition handleFileUpload (file : option File) (reader_throws : bool)
           (st : State) : State * list Pending :=
  match file with
  | None => (st, [])
  | Some f =>
      if negb (jsstring_eqb (type f) (jstr "application/pdf")) then
        (setError (Some "Please upload a PDF file.") st, [])
      else
        let st1 := setResult (fun _ => None)
                     (setError None (setIsUploading true st)) in
        if reader_throws then
          (setIsUploading false (setError (Some "Error reading file.") st1),
           [])
        else (st1, [Reading f])
  end.

(** [reader.onload], up to its [await]. *)
Definition reader_onload (dataURL : jsstring) (st : State)
  : State * list Pending :=
  let base64Data := nth_error (split 44 dataURL) 1 in
  (setCurrentPdfBase64 base64Data st, [FirstPage base64Data]).

(** [reader.onload], from its [await] on. *)
Definition first_page_settled (p : Promise ProcessingResult) (st : State)
  : State :=
  setIsUploading false
    match p with
    | Resolved data => setResult (fun _ => Some data) st
    | Rejected _ =>
        setError (Some "Failed to process the PDF. Please try again.") st
    end.

(** [loadNextPage], up to its [await]. The guard returns when there is
    no result, when the document is [undefined] or the empty string, and
    when a next page is being loaded. The addition is that of the
    integers: it is the addition of the code, on JavaScript numbers,
    as long as the page number and its successor are safe integers. *)
Definition loadNextPage (st : State) : State * list Pending :=
  match result st, currentPdfBase64 st with
  | Some r, Some (c :: b) =>
      if isLoadingNext st then (st, [])
      else
        let nextPage := currentPage r + 1 in
        (setIsLoadingNext true st, [NextPage (c :: b) nextPage])
  | _, _ => (st, [])
  end.

(** The updater [prev => ...] of [loadNextPage], the page accumulator;
    [nextPage] and [nextData] are the variables of its closure. The
    spread [...nextData] supplies [title] and [author]. *)
Definition mergePage (nextPage : Z) (prev : option ProcessingResult)
           (nextData : ProcessingResult) : ProcessingResult :=
  match prev with
  | None => nextData
  | Some prev =>
      {| title := title nextData;
         author := author nextData;
         content := content prev ++ content nextData;
         currentPage := nextPage;
         hasMore := hasMore nextData |}
  end.

(** [loadNextPage], from its [await] on. *)
Definition next_page_settled (nextPage : Z) (p : Promise ProcessingResult)
           (st : State) : State :=
  setIsLoadingNext false
    match p with
    | Resolved nextData =>
        setResult (fun prev => Some (mergePage nextPage prev nextData)) st
    | Rejected _ => setError (Some "Failed to load the next page.") st
    end.

(* ------------------------------------------------------------------ *)
(** *** What is rendered *)

(** The file input is rendered under [!result && !isUploading]; the
    header button only clicks it through its ref, so a file can be
    chosen only while it is rendered. *)
Definition file_input_mounted (st : State) : bool :=
  negb (is_some (result st)) && negb (isUploading st).

(** The next-page button: [None] when it is not rendered, otherwise
    whether it is disabled. *)
Definition next_button_disabled (st : State) : option bool :=
  match result st with
  | Some r => if hasMore r then Some (isLoadingNext st) else None
  | None => None
  end.

(* ------------------------------------------------------------------ *)
(** *** The session: component state and outstanding work *)

(** [sent] logs every request issued to the service, oldest first. *)
Record Session := {
  state : State;
  pending : list Pending;
  sent : list Request
}.

Definition start : Session :=
  {| state := initial; pending := []; sent := [] |}.

(** A handler has run: its state is committed and its work started. *)
Definition commit (s : Session) (kept : list Pending)
           (r : State * list Pending) : Session :=
  {| state := fst r;
     pending := kept ++ snd r;
     sent := sent s ++ requests_of (snd r) |}.

Definition remove_nth {A : Type} (i : nat) (l : list A) : list A :=
  firstn i l ++ skipn (S i) l.

(** The awaited fetch, read at the type the code gives it. A reply that
    parses to a value outside [ProcessingResult] is outside this model
    of the component: the handlers are typed, and what they do with such
    a value is not described here. *)
Definition typed (p : Promise json) : option (Promise ProcessingResult) :=
  match p with
  | Resolved v =>
      match as_ProcessingResult v with
      | Some data => Some (Resolved data)
      | None => None
      end
  | Rejected e => Some (Rejected e)
  end.

(** What can happen to a session. Indices name a pending operation. *)
Inductive Event :=
| FileChosen (file : option File) (reader_throws : bool)
| ReaderLoaded (i : nat) (dataURL : jsstring)
| ReaderFailed (i : nat)
| Settled (i : nat) (r : Response)
| NextClicked.

(** One turn of the event loop; [None] when the event cannot occur.
    Every handler runs on the state of the latest render. A click on
    the next-page button is let through in every state, also where the
    button is not rendered or is disabled: the guard of [loadNextPage]
    is what is modelled. *)
Definition step (e : Event) (s : Session) : option Session :=
  match e with
  | FileChosen file reader_throws =>
      if file_input_mounted (state s)
      then Some (commit s (pending s)
                   (handleFileUpload file reader_throws (state s)))
      else None
  | ReaderLoaded i dataURL =>
      match nth_error (pending s) i with
      | Some (Reading _) =>
          Some (commit s (remove_nth i (pending s))
                  (reader_onload dataURL (state s)))
      | _ => None
      end
  | ReaderFailed i =>
      match nth_error (pending s) i with
      | Some (Reading _) =>
          Some (commit s (remove_nth i (pending s)) (state s, []))
      | _ => None
      end
  | Settled i r =>
      match nth_error (pending s) i with
      | Some (FirstPage _) =>
          match typed (parse_response r) with
          | Some p =>
              Some (commit s (remove_nth i (pending s))
                      (first_page_settled p (state s), []))
          | None => None
          end
      | Some (NextPage _ nextPage) =>
          match typed (parse_response r) with
          | Some p =>
              Some (commit s (remove_nth i (pending s))
                      (next_page_settled nextPage p (state s), []))
          | None => None
          end
      | _ => None
      end
  | NextClicked =>
      Some (commit s (pending s) (loadNextPage (state s)))
  end.

Fixpoint run (es : list Event) (s : Session) : option Session :=
  match es with
  | [] => Some s
  | e :: es' =>
      match step e s with
      | Some s' => run es' s'
      | None => None
      end
  end.

Inductive reachable : Session -> Prop :=
| reachable_start : reachable start
| reachable_step e s s' :
    reachable s -> step e s = Some s' -> reachable s'.

Definition is_fetch (p : Pending) : bool :=
  match p with
  | Reading _ => false
  | FirstPage _ | NextPage _ _ => true
  end.

(** The number of page fetches that are outstanding. *)
Definition outstanding (s : Session) : nat :=
  List.length (filter is_fetch (pending s)).

(** What holds of the component state and the outstanding work in every
    session that can be reached: at most one operation is outstanding,
    and the pending flags and the result agree with it. *)
Definition consistent (s : Session) : Prop :=
  let st := state s in
  match pending s with
  | [] =>
      isLoadingNext st = false
      /\ (isUploading st = true -> result st = None)
  | [Reading _] | [FirstPage _] =>
      isUploading st = true /\ isLoadingNext st = false
      /\ result st = None
  | [NextPage b nextPage] =>
      isUploading st = false /\ isLoadingNext st = true
      /\ currentPdfBase64 st = Some b
      /\ exists r, result st = Some r /\ nextPage = currentPage r + 1
  | _ => False
  end.

(** The state while the first page of a document is on its way. *)
Definition uploading (document : option jsstring) : State :=
  {| isUploading := true; isLoadingNext := false; result := None;
     currentPdfBase64 := document; error := None |}.

(** [r'] keeps every entry of [r], in place, and is on a page that is
    not before the page of [r]. *)
Definition extends (r r' : ProcessingResult) : Prop :=
  (exists added, content r' = content r ++ added)
  /\ currentPage r <= currentPage r'.

(* ------------------------------------------------------------------ *)
(** *** The blocks of the page *)

(** The three blocks of [<main>]: the landing block under
    [!result && !isUploading], the spinner under [isUploading] and the
    document under [result]. *)
Definition landing_shown (st : State) : bool :=
  negb (is_some (result st)) && negb (isUploading st).

Definition spinner_shown (st : State) : bool := isUploading st.

Definition result_shown (st : State) : bool := is_some (result st).

Definition blocks_shown (st : State) : nat :=
  (Nat.b2n (landing_shown st) + Nat.b2n (spinner_shown st)
   + Nat.b2n (result_shown st))%nat.

(** The message on the page: [{error && <p>...</p>}] is part of the
    landing block and of the document block, not of the spinner. *)
Definition error_shown (st : State) : option string :=
  if landing_shown st || result_shown st then
    match error st with
    | Some EmptyString => None
    | e => e
    end
  else None.

(** The browser delivers a click only to a button that is rendered and
    not disabled. *)
Definition clickable (st : State) : bool :=
  match next_button_disabled st with
  | Some false => true
  | _ => false
  end.

(** One turn of the event loop as the page lets it happen: as [step],
    with the clicks on the next-page button the page cannot deliver
    left out. *)
Definition ui_step (e : Event) (s : Session) : option Session :=
  match e with
  | NextClicked => if clickable (state s) then step e s else None
  | _ => step e s
  end.

Fixpoint ui_run (es : list Event) (s : Session) : option Session :=
  match es with
  | [] => Some s
  | e :: es' =>
      match ui_step e s with
      | Some s' => ui_run es' s'
      | None => None
      end
  end.

Inductive ui_reachable : Session -> Prop :=
| ui_reachable_start : ui_reachable start
| ui_reachable_step e s s' :
    ui_reachable s -> ui_step e s = Some s' -> ui_reachable s'.

(** Page numbers are JavaScript numbers. On the safe integers the
    additions of the code ([currentPage + 1] in [loadNextPage],
    [pageNumber + 1] in the prompt) are exact and a number prints as its
    digits, so that the integers of this model are the numbers of the
    code. [safe_page n] says that [n], [n + 1] and [n + 2] are safe. *)
Definition safe_page (n : Z) : bool :=
  (- 2 ^ 53 <? n) && (n + 2 <? 2 ^ 53).

Definition pages_safe (s : Session) : bool :=
  match result (state s) with
  | Some r => safe_page (currentPage r)
  | None => true
  end.

(** A turn of the event loop that leaves the page number of the result,
    if there is one, safe. *)
Definition safe_step (e : Event) (s : Session) : option Session :=
  match step e s with
  | Some s' => if pages_safe s' then Some s' else None
  | None => None
  end.

Fixpoint safe_run (es : list Event) (s : Session) : option Session :=
  match es with
  | [] => Some s
  | e :: es' =>
      match safe_step e s with
      | Some s' => safe_run es' s'
      | None => None
      end
  end.

(** The sessions reached with safe page numbers all along. *)
Inductive safe_reachable : Session -> Prop :=
| safe_reachable_start : safe_reachable start
| safe_reachable_step e s s' :
    safe_reachable s -> safe_step e s = Some s' -> safe_reachable s'.

(** The next page is asked for and arrives, once for each reply. *)
Definition load (replies : list Response) : list Event :=
  flat_map (fun r => [NextClicked; Settled 0 r]) replies.

(** The requests for the [n] pages after page [p] of a document. *)
Definition next_requests (document : jsstring) (p : Z) (n : nat)
  : list Request :=
  map (fun k => request (Some document) (p + Z.of_nat k)) (seq 1 n).

End App.

(* ================================================================== *)
(** ** Sample files and replies *)
(* ================================================================== *)

Module Samples.
Import Js Types Gemini App.

Definition pdf : File := {| type := jstr "application/pdf" |}.
Definition png : File := {| type := jstr "image/png" |}.

Definition dataURL : jsstring :=
  jstr "data:application/pdf;base64,JVBERi0xLjQK".

Definition base64 : jsstring := jstr "JVBERi0xLjQK".

(** A reply of the service with one sentence, written out as JSON. *)
Definition reply_text (a e : jsstring) (page : string) (more : string)
  : jsstring :=
  jstr "{" ++ quoted "content" ++ jstr ":[{" ++ quoted "arabic" ++ jstr ":"
    ++ 34%N :: a ++ 34%N :: jstr "," ++ quoted "english" ++ jstr ":"
    ++ 34%N :: e ++ 34%N :: jstr "}]," ++ quoted "currentPage" ++ jstr ":"
    ++ jstr page ++ jstr "," ++ quoted "hasMore" ++ jstr ":" ++ jstr more
    ++ jstr "}".

(** Alef with hamza above, and beh. *)
Definition alef : jsstring := [1571%N].
Definition beh : jsstring := [1576%N].

Definition reply1 : Response :=
  Replied (Some (reply_text alef (jstr "a") "1" "true")).
Definition reply2 : Response :=
  Replied (Some (reply_text beh (jstr "b") "2" "false")).
(** A reply that names page 5, whatever page was asked for. *)
Definition reply5 : Response :=
  Replied (Some (reply_text beh (jstr "b") "5" "true")).
(** A reply that names page 7 and carries a title. *)
Definition reply7 : Response :=
  Replied (Some (jstr "{" ++ quoted "title" ++ jstr ":" ++ quoted "Kitab"
                   ++ jstr "," ++ quoted "content" ++ jstr ":[],"
                   ++ quoted "currentPage" ++ jstr ":7,"
                   ++ quoted "hasMore" ++ jstr ":false}")).
(** Replies that are not JSON. *)
Definition reply_empty : Response := Replied (Some []).
Definition reply_absent : Response := Replied None.
Definition reply_garbage : Response := Replied (Some (jstr "Sorry, I cannot")).

Definition pair (a e : jsstring) : TranslationPair :=
  {| arabic := a; english := e; numberPronunciation := None |}.

Definition page1 : ProcessingResult :=
  {| title := None; author := None; content := [pair alef (jstr "a")];
     currentPage := 1; hasMore := true |}.
Definition page2 : ProcessingResult :=
  {| title := None; author := None; content := [pair beh (jstr "b")];
     currentPage := 2; hasMore := false |}.
Definition page5 : ProcessingResult :=
  {| title := None; author := None; content := [pair beh (jstr "b")];
     currentPage := 5; hasMore := true |}.
Definition titled : ProcessingResult :=
  {| title := Some (jstr "Kitab"); author := Some (jstr "Katib");
     content := [pair alef (jstr "a")]; currentPage := 1; hasMore := true |}.

(** A file is chosen, read, and its first page arrives. *)
Definition upload : list Event :=
  [FileChosen (Some pdf) false; ReaderLoaded 0 dataURL; Settled 0 reply1].

(** The session after the events [es], from the start. *)
Definition session_of (es : list Event) : Session :=
  match run es start with
  | Some s => s
  | None => start
  end.

(** The first page is shown. *)
Definition showing : Session := session_of upload.
(** The second page has been asked for. *)
Definition loading : Session := session_of (upload ++ [NextClicked]).
(** The first request failed; the document of that upload is still held. *)
Definition failed : Session :=
  session_of [FileChosen (Some pdf) false; ReaderLoaded 0 dataURL;
              Settled 0 Threw].

(** A PDF has been chosen and is being read. *)
Definition chosen : Session := session_of [FileChosen (Some pdf) false].
(** The file has been read and its first page has been asked for. *)
Definition requested : Session :=
  session_of [FileChosen (Some pdf) false; ReaderLoaded 0 dataURL].
(** The request for the second page was rejected. *)
Definition failed_next : Session :=
  session_of (upload ++ [NextClicked; Settled 0 Threw]).
(** The second page was asked for again and has arrived. *)
Definition recovered : Session :=
  session_of (upload ++ [NextClicked; Settled 0 Threw;
                         NextClicked; Settled 0 reply2]).
(** The second page has arrived: the end of the document. *)
Definition finished : Session :=
  session_of (upload ++ [NextClicked; Settled 0 reply2]).

End Samples.

(* ================================================================== *)
(** ** Facts about [JSON.parse] *)
(* ================================================================== *)

Module JsFacts.
Import Js Types Gemini.

Lemma jsstring_eqb_eq a b : jsstring_eqb a b = true <-> a = b.
Proof.
  unfold jsstring_eqb. destruct (list_eq_dec N.eq_dec a b); split; congruence.
Qed.

Lemma jsstring_eqb_refl a : jsstring_eqb a a = true.
Proof. now apply jsstring_eqb_eq. Qed.

Lemma skip_ws_length s : (List.length (skip_ws s) <= List.length s)%nat.
Proof.
  induction s as [|c s IH]; simpl; [lia|].
  destruct (is_ws c); simpl; lia.
Qed.

Lemma take_digits_length s ds r :
  take_digits s = (ds, r) -> (List.length r <= List.length s)%nat.
Proof.
  revert ds r. induction s as [|c s IH]; simpl; intros ds r H.
  - inversion H; subst; simpl; lia.
  - destruct (is_digit c).
    + destruct (take_digits s) as [ds' r'] eqn:E. inversion H; subst.
      specialize (IH _ _ eq_refl). lia.
    + inversion H; subst; simpl; lia.
Qed.

Lemma strip_prefix_length lit s r :
  strip_prefix lit s = Some r -> (List.length r <= List.length s)%nat.
Proof.
  revert s r. induction lit as [|a lit IH]; intros s r H; simpl in H.
  - inversion H; subst; lia.
  - destruct s as [|b s]; [discriminate|].
    destruct (a =? b)%N; [|discriminate].
    apply IH in H. simpl; lia.
Qed.

Lemma parse_chars_length_aux n :
  forall s cs r, (List.length s <= n)%nat ->
    parse_chars s = Some (cs, r) -> (List.length r < List.length s)%nat.
Proof.
  induction n as [|n IH]; intros s cs r Hn H.
  - destruct s; simpl in *; [discriminate|lia].
  - destruct s as [|c s]; simpl in H; [discriminate|].
    destruct (c =? 34)%N.
    { inversion H; subst; simpl; lia. }
    destruct (c =? 92)%N.
    { destruct s as [|e s]; [discriminate|].
      destruct (e =? 117)%N.
      - destruct s as [|h1 [|h2 [|h3 [|h4 s]]]]; try discriminate.
        destruct (hex4 h1 h2 h3 h4); [|discriminate].
        destruct (parse_chars s) as [[cs' r']|] eqn:E; [|discriminate].
        inversion H; subst. apply IH in E; simpl in *; lia.
      - destruct (unescape e); [|discriminate].
        destruct (parse_chars s) as [[cs' r']|] eqn:E; [|discriminate].
        inversion H; subst. apply IH in E; simpl in *; lia. }
    destruct (c <? 32)%N; [discriminate|].
    destruct (parse_chars s) as [[cs' r']|] eqn:E; [|discriminate].
    inversion H; subst. apply IH in E; simpl in *; lia.
Qed.

Lemma parse_chars_length s cs r :
  parse_chars s = Some (cs, r) -> (List.length r < List.length s)%nat.
Proof. apply (parse_chars_length_aux (List.length s)); lia. Qed.

Lemma eat_length c s r :
  eat c s = Some r -> List.length s = S (List.length r).
Proof.
  destruct s as [|x s]; simpl; [discriminate|].
  destruct (x =? c)%N; [|discriminate]. now intros [= ->].
Qed.

Lemma take_digits1_length s ds r :
  take_digits1 s = Some (ds, r) -> (List.length r <= List.length s)%nat.
Proof.
  unfold take_digits1. destruct (take_digits s) as [[|d l] r'] eqn:E;
    [discriminate|].
  intros [= <- <-]. eapply take_digits_length; eauto.
Qed.

Lemma parse_fraction_length s fp r :
  parse_fraction s = Some (fp, r) -> (List.length r <= List.length s)%nat.
Proof.
  unfold parse_fraction. destruct (eat 46 s) as [r'|] eqn:E.
  - intros H. apply take_digits1_length in H. apply eat_length in E. lia.
  - now intros [= <- <-].
Qed.

Lemma parse_exponent_length s e r :
  parse_exponent s = Some (e, r) -> (List.length r <= List.length s)%nat.
Proof.
  unfold parse_exponent. destruct s as [|c s]; [now intros [= <- <-]|].
  destruct ((c =? 101) || (c =? 69))%N; [|now intros [= <- <-]].
  destruct (eat 45 s) as [r1|] eqn:E1; [|destruct (eat 43 s) as [r2|] eqn:E2];
    match goal with
    | |- context [take_digits1 ?x] =>
        destruct (take_digits1 x) as [[ep s']|] eqn:E; [|discriminate]
    end;
    intros [= <- <-]; apply take_digits1_length in E;
    repeat match goal with
           | H : eat _ _ = Some _ |- _ => apply eat_length in H
           end; simpl in *; lia.
Qed.

Lemma parse_number_length s n r :
  parse_number s = Some (n, r) -> (List.length r <= List.length s)%nat.
Proof.
  unfold parse_number.
  assert (Hs : forall neg s1,
             match eat 45 s with
             | Some r => (true, r)
             | None => (false, s)
             end = (neg, s1) -> (List.length s1 <= List.length s)%nat).
  { intros neg s1. destruct (eat 45 s) as [r'|] eqn:E; intros [= <- <-].
    - apply eat_length in E; lia.
    - lia. }
  destruct (match eat 45 s with
            | Some r => (true, r)
            | None => (false, s)
            end) as [neg s1].
  specialize (Hs _ _ eq_refl).
  destruct (take_digits1 s1) as [[ip s2]|] eqn:E1; [|discriminate].
  destruct ((hd 0%N ip =? 48)%N && negb (Nat.eqb (List.length ip) 1));
    [discriminate|].
  destruct (parse_fraction s2) as [[fp s3]|] eqn:E2; [|discriminate].
  destruct (parse_exponent s3) as [[e s4]|] eqn:E3; [|discriminate].
  intros [= <- <-].
  apply take_digits1_length in E1. apply parse_fraction_length in E2.
  apply parse_exponent_length in E3. lia.
Qed.

Lemma parse_literal_length s v r :
  parse_literal s = Some (v, r) -> (List.length r <= List.length s)%nat.
Proof.
  unfold parse_literal.
  destruct (strip_prefix (jstr "true") s) eqn:E1;
    [intros [= <- <-]; eapply strip_prefix_length; eauto|].
  destruct (strip_prefix (jstr "false") s) eqn:E2;
    [intros [= <- <-]; eapply strip_prefix_length; eauto|].
  destruct (strip_prefix (jstr "null") s) eqn:E3;
    [intros [= <- <-]; eapply strip_prefix_length; eauto|discriminate].
Qed.

Lemma parse_string_length s k r :
  parse_string s = Some (k, r) -> (List.length r < List.length s)%nat.
Proof.
  unfold parse_string. destruct (eat 34 s) as [r'|] eqn:E; [|discriminate].
  intros H. apply parse_chars_length in H. apply eat_length in E. lia.
Qed.

(** One unfolding of each parser. *)
Lemma parse_value_S fuel s :
  parse_value (S fuel) s =
  match skip_ws s with
  | [] => PSyntaxError
  | c :: r =>
      if (c =? 123)%N then
        match eat 125 (skip_ws r) with
        | Some r' => POk (JObject []) (skip_ws r')
        | None =>
            match parse_members fuel r with
            | POk ms r' => POk (JObject ms) (skip_ws r')
            | PSyntaxError => PSyntaxError
            | POutOfFuel => POutOfFuel
            end
        end
      else if (c =? 91)%N then
        match eat 93 (skip_ws r) with
        | Some r' => POk (JArray []) (skip_ws r')
        | None =>
            match parse_elements fuel r with
            | POk vs r' => POk (JArray vs) (skip_ws r')
            | PSyntaxError => PSyntaxError
            | POutOfFuel => POutOfFuel
            end
        end
      else if (c =? 34)%N then
        match parse_chars r with
        | Some (cs, r') => POk (JString cs) (skip_ws r')
        | None => PSyntaxError
        end
      else if (c =? 45)%N || is_digit c then
        match parse_number (c :: r) with
        | Some (n, r') => POk (JNumber n) (skip_ws r')
        | None => PSyntaxError
        end
      else
        match parse_literal (c :: r) with
        | Some (v, r') => POk v (skip_ws r')
        | None => PSyntaxError
        end
  end.
Proof. reflexivity. Qed.

Lemma parse_elements_S fuel s :
  parse_elements (S fuel) s =
  match parse_value fuel s with
  | POk v r =>
      match eat 93 r, eat 44 r with
      | Some r', _ => POk [v] r'
      | None, Some r' =>
          match parse_elements fuel r' with
          | POk vs r'' => POk (v :: vs) r''
          | PSyntaxError => PSyntaxError
          | POutOfFuel => POutOfFuel
          end
      | None, None => PSyntaxError
      end
  | PSyntaxError => PSyntaxError
  | POutOfFuel => POutOfFuel
  end.
Proof. reflexivity. Qed.

Lemma parse_members_S fuel s :
  parse_members (S fuel) s =
  match parse_string (skip_ws s) with
  | Some (k, r1) =>
      match eat 58 (skip_ws r1) with
      | Some r2 =>
          match parse_value fuel r2 with
          | POk v r3 =>
              match eat 125 r3, eat 44 r3 with
              | Some r4, _ => POk [(k, v)] r4
              | None, Some r4 =>
                  match parse_members fuel r4 with
                  | POk ms r5 => POk ((k, v) :: ms) r5
                  | PSyntaxError => PSyntaxError
                  | POutOfFuel => POutOfFuel
                  end
              | None, None => PSyntaxError
              end
          | PSyntaxError => PSyntaxError
          | POutOfFuel => POutOfFuel
          end
      | None => PSyntaxError
      end
  | None => PSyntaxError
  end.
Proof. reflexivity. Qed.

Ltac note_skip_ws :=
  repeat match goal with
         | |- context [skip_ws ?x] =>
             lazymatch goal with
             | _ : (List.length (skip_ws x) <= List.length x)%nat |- _ => fail
             | _ => pose proof (skip_ws_length x)
             end
         | _ : context [skip_ws ?x] |- _ =>
             lazymatch goal with
             | _ : (List.length (skip_ws x) <= List.length x)%nat |- _ => fail
             | _ => pose proof (skip_ws_length x)
             end
         end.

Ltac note_lengths :=
  repeat match goal with
         | H : eat _ _ = Some _ |- _ => apply eat_length in H
         | H : parse_chars _ = Some _ |- _ => apply parse_chars_length in H
         | H : parse_string _ = Some _ |- _ => apply parse_string_length in H
         | H : parse_number _ = Some _ |- _ => apply parse_number_length in H
         | H : parse_literal _ = Some _ |- _ => apply parse_literal_length in H
         end.

(** No parser returns more text than it was given. *)
Lemma parse_length fuel :
  (forall s v r, parse_value fuel s = POk v r ->
                 (List.length r <= List.length s)%nat) /\
  (forall s vs r, parse_elements fuel s = POk vs r ->
                  (List.length r <= List.length s)%nat) /\
  (forall s ms r, parse_members fuel s = POk ms r ->
                  (List.length r <= List.length s)%nat).
Proof.
  induction fuel as [|fuel (IHv & IHe & IHm)].
  { repeat split; intros; discriminate. }
  repeat split.
  - intros s v r. rewrite parse_value_S.
    destruct (skip_ws s) as [|c r0] eqn:Es; [discriminate|].
    pose proof (skip_ws_length s) as Hs. rewrite Es in Hs. simpl in Hs.
    destruct (c =? 123)%N.
    { destruct (eat 125 (skip_ws r0)) eqn:E.
      - intros [= <- <-]. note_lengths. note_skip_ws. lia.
      - destruct (parse_members fuel r0) eqn:E'; try discriminate.
        intros [= <- <-]. apply IHm in E'. note_skip_ws. lia. }
    destruct (c =? 91)%N.
    { destruct (eat 93 (skip_ws r0)) eqn:E.
      - intros [= <- <-]. note_lengths. note_skip_ws. lia.
      - destruct (parse_elements fuel r0) eqn:E'; try discriminate.
        intros [= <- <-]. apply IHe in E'. note_skip_ws. lia. }
    destruct (c =? 34)%N.
    { destruct (parse_chars r0) as [[cs r']|] eqn:E; [|discriminate].
      intros [= <- <-]. note_lengths. note_skip_ws. lia. }
    destruct ((c =? 45)%N || is_digit c).
    { destruct (parse_number (c :: r0)) as [[n r']|] eqn:E; [|discriminate].
      intros [= <- <-]. note_lengths. note_skip_ws. simpl in *. lia. }
    destruct (parse_literal (c :: r0)) as [[v' r']|] eqn:E; [|discriminate].
    intros [= <- <-]. note_lengths. note_skip_ws. simpl in *. lia.
  - intros s vs r. rewrite parse_elements_S.
    destruct (parse_value fuel s) as [v r0| |] eqn:E; try discriminate.
    apply IHv in E.
    destruct (eat 93 r0) eqn:E1.
    { intros [= <- <-]. note_lengths. lia. }
    destruct (eat 44 r0) as [r1|] eqn:E2; [|discriminate].
    destruct (parse_elements fuel r1) eqn:E3; try discriminate.
    intros [= <- <-]. apply IHe in E3. note_lengths. lia.
  - intros s ms r. rewrite parse_members_S.
    destruct (parse_string (skip_ws s)) as [[k r1]|] eqn:E0; [|discriminate].
    destruct (eat 58 (skip_ws r1)) as [r2|] eqn:E1; [|discriminate].
    destruct (parse_value fuel r2) as [v r3| |] eqn:E; try discriminate.
    apply IHv in E. note_lengths. note_skip_ws.
    destruct (eat 125 r3) eqn:E2.
    { intros [= <- <-]. note_lengths. lia. }
    destruct (eat 44 r3) as [r4|] eqn:E3; [|discriminate].
    destruct (parse_members fuel r4) eqn:E4; try discriminate.
    intros [= <- <-]. apply IHm in E4. note_lengths. lia.
Qed.

(** [fuel_for] is enough: the parsers never stop for lack of fuel. *)
Lemma parse_fuel fuel :
  (forall s, (2 * List.length s + 1 <= fuel)%nat ->
             parse_value fuel s <> POutOfFuel) /\
  (forall s, (2 * List.length s + 2 <= fuel)%nat ->
             parse_elements fuel s <> POutOfFuel) /\
  (forall s, (2 * List.length s + 2 <= fuel)%nat ->
             parse_members fuel s <> POutOfFuel).
Proof.
  induction fuel as [|fuel (IHv & IHe & IHm)].
  { repeat split; intros; lia. }
  repeat split.
  - intros s Hf. rewrite parse_value_S.
    destruct (skip_ws s) as [|c r0] eqn:Es; [discriminate|].
    pose proof (skip_ws_length s) as Hs. rewrite Es in Hs. simpl in Hs.
    destruct (c =? 123)%N.
    { destruct (eat 125 (skip_ws r0)); [discriminate|].
      destruct (parse_members fuel r0) eqn:E'; try discriminate.
      exfalso. revert E'. apply IHm. lia. }
    destruct (c =? 91)%N.
    { destruct (eat 93 (skip_ws r0)); [discriminate|].
      destruct (parse_elements fuel r0) eqn:E'; try discriminate.
      exfalso. revert E'. apply IHe. lia. }
    destruct (c =? 34)%N.
    { destruct (parse_chars r0) as [[cs r']|]; discriminate. }
    destruct ((c =? 45)%N || is_digit c).
    { destruct (parse_number (c :: r0)) as [[n r']|]; discriminate. }
    destruct (parse_literal (c :: r0)) as [[v' r']|]; discriminate.
  - intros s Hf. rewrite parse_elements_S.
    destruct (parse_value fuel s) as [v r0| |] eqn:E; try discriminate.
    + apply (proj1 (parse_length fuel)) in E.
      destruct (eat 93 r0) eqn:E1; [discriminate|].
      destruct (eat 44 r0) as [r1|] eqn:E2; [|discriminate].
      destruct (parse_elements fuel r1) eqn:E3; try discriminate.
      exfalso. revert E3. apply IHe. note_lengths. lia.
    + exfalso. revert E. apply IHv. lia.
  - intros s Hf. rewrite parse_members_S.
    destruct (parse_string (skip_ws s)) as [[k r1]|] eqn:E0; [|discriminate].
    destruct (eat 58 (skip_ws r1)) as [r2|] eqn:E1; [|discriminate].
    note_lengths. note_skip_ws.
    destruct (parse_value fuel r2) as [v r3| |] eqn:E; try discriminate.
    + apply (proj1 (parse_length fuel)) in E.
      destruct (eat 125 r3) eqn:E2; [discriminate|].
      destruct (eat 44 r3) as [r4|] eqn:E3; [|discriminate].
      destruct (parse_members fuel r4) eqn:E4; try discriminate.
      exfalso. revert E4. apply IHm. note_lengths. lia.
    + exfalso. revert E. apply IHv. lia.
Qed.

(** Texts and what they parse to. *)
Example JSON_parse_empty_object :
  JSON_parse (jstr "{}") = Some (JObject [])
  /\ JSON_parse (jstr " { } ") = Some (JObject []).
Proof. split; reflexivity. Qed.

Example JSON_parse_values :
  JSON_parse (jstr "[1, 2.50, -3e2, true, null, {}]")
  = Some (JArray [JNumber {| mantissa := 1; exp10 := 0 |};
                  JNumber {| mantissa := 250; exp10 := -2 |};
                  JNumber {| mantissa := -3; exp10 := 2 |};
                  JBool true; JNull; JObject []]).
Proof. reflexivity. Qed.

Example JSON_parse_string_escapes :
  JSON_parse (quoted "a\n\u0623") = Some (JString [97; 10; 1571]%N).
Proof. reflexivity. Qed.

Example JSON_parse_syntax_errors :
  JSON_parse (jstr "") = None
  /\ JSON_parse (jstr "[1,]") = None
  /\ JSON_parse (jstr "01") = None
  /\ JSON_parse (jstr "1.") = None
  /\ JSON_parse (jstr "nul") = None
  /\ JSON_parse (jstr "{} x") = None
  /\ JSON_parse (jstr "{'a': 1}") = None
  /\ JSON_parse (jstr "[[]") = None.
Proof. repeat split. Qed.

(** [JSON_parse] answers [None] only for a syntax error. *)
Lemma JSON_parse_fuel text :
  parse_value (fuel_for text) text <> POutOfFuel.
Proof. apply (proj1 (parse_fuel (fuel_for text))). unfold fuel_for. lia. Qed.

Lemma as_TranslationPair_conforms v p :
  as_TranslationPair v = Some p -> conforms content_items v = true.
Proof.
  unfold as_TranslationPair, content_items. destruct v as [| | | | |ms]; try discriminate.
  cbn [conforms forallb].
  destruct (get "arabic" (JObject ms)) as [[| | |a| |]|];
    try discriminate.
  destruct (get "english" (JObject ms)) as [[| | |e| |]|];
    try discriminate.
  destruct (get "numberPronunciation" (JObject ms)) as [[| | |np| |]|];
    try discriminate; reflexivity.
Qed.

Lemma as_all_conforms sch (f : json -> option TranslationPair) vs l :
  (forall v p, f v = Some p -> conforms sch v = true) ->
  as_all f vs = Some l -> forallb (conforms sch) vs = true.
Proof.
  intros Hf. revert l. induction vs as [|v vs IH]; intros l; simpl; auto.
  destruct (f v) eqn:E; [|discriminate].
  destruct (as_all f vs); [|discriminate].
  intros _. rewrite (Hf _ _ E). simpl. eauto.
Qed.

(** A reply that has the declared type conforms to the schema. *)
Lemma as_ProcessingResult_conforms v r :
  as_ProcessingResult v = Some r -> conforms responseSchema v = true.
Proof.
  unfold as_ProcessingResult, responseSchema.
  destruct v as [| | | | |ms]; try discriminate.
  cbn [conforms forallb].
  destruct (get "title" (JObject ms)) as [[| | |t| |]|];
    try discriminate;
    (destruct (get "author" (JObject ms)) as [[| | |a| |]|];
     try discriminate;
     destruct (get "content" (JObject ms)) as [[| | | |items|]|];
     try discriminate;
     destruct (get "currentPage" (JObject ms)) as [[| |n| | |]|];
     try discriminate;
     destruct (get "hasMore" (JObject ms)) as [[|h| | | |]|];
     try discriminate;
     destruct (as_all as_TranslationPair items) as [c|] eqn:Ei;
     try discriminate;
     destruct (jnumber_to_Z n) as [p|]; try discriminate;
     intros _;
     apply (as_all_conforms _ _ _ _ as_TranslationPair_conforms) in Ei;
     cbn [as_optional_string is_some andb]; rewrite Ei; reflexivity).
Qed.

End JsFacts.



(* ================================================================== *)
(** ** Facts about the session *)
(* ================================================================== *)

Module AppFacts.
Import Js Types Gemini App.

Lemma consistent_start : consistent start.
Proof. unfold consistent; simpl; split; [reflexivity|discriminate]. Qed.

(** In a consistent session a pending operation is the only one. *)
Lemma consistent_pending s i p :
  consistent s -> nth_error (pending s) i = Some p ->
  pending s = [p] /\ i = 0%nat.
Proof.
  unfold consistent. intros C H.
  destruct (pending s) as [|q [|q' l]].
  - destruct i; discriminate.
  - destruct i as [|i]; simpl in H.
    + inversion H; subst; auto.
    + destruct i; discriminate.
  - destruct q; contradiction.
Qed.

(** The file input is rendered only when nothing is outstanding. *)
Lemma mounted_idle s :
  consistent s -> file_input_mounted (state s) = true ->
  pending s = [] /\ result (state s) = None
  /\ isUploading (state s) = false /\ isLoadingNext (state s) = false.
Proof.
  unfold consistent, file_input_mounted. intros C M.
  apply andb_true_iff in M as [Mr Mu]. apply negb_true_iff in Mr, Mu.
  assert (Hr : result (state s) = None)
    by (destruct (result (state s)); [discriminate|reflexivity]).
  destruct (pending s) as [|q [|q' l]].
  - intuition.
  - destruct q.
    + destruct C as (U & _). congruence.
    + destruct C as (U & _). congruence.
    + destruct C as (_ & _ & _ & r & R & _). congruence.
  - destruct q; contradiction.
Qed.

Lemma handleFileUpload_consistent s file reader_throws :
  consistent s -> file_input_mounted (state s) = true ->
  consistent (commit s (pending s)
                (handleFileUpload file reader_throws (state s))).
Proof.
  intros C M. destruct (mounted_idle s C M) as (P & R & U & L).
  unfold commit, handleFileUpload, consistent. rewrite P.
  destruct file as [f|]; simpl.
  - destruct (jsstring_eqb (type f) (jstr "application/pdf")); simpl.
    + destruct reader_throws; simpl; auto.
    + intuition congruence.
  - intuition congruence.
Qed.

Lemma loadNextPage_consistent s :
  consistent s -> consistent (commit s (pending s) (loadNextPage (state s))).
Proof.
  intros C. unfold commit, loadNextPage.
  destruct (result (state s)) as [r|] eqn:R;
    [|simpl; rewrite app_nil_r; exact C].
  destruct (currentPdfBase64 (state s)) as [[|c b]|] eqn:B;
    try (simpl; rewrite app_nil_r; exact C).
  destruct (isLoadingNext (state s)) eqn:L;
    [simpl; rewrite app_nil_r; exact C|].
  revert C. unfold consistent. simpl. rewrite R, B, L.
  destruct (pending s) as [|q [|q' l]].
  - intros (_ & U). simpl. repeat split; eauto.
    destruct (isUploading (state s)); [|reflexivity].
    discriminate (U eq_refl).
  - destruct q; intros C.
    + destruct C as (_ & _ & ?); discriminate.
    + destruct C as (_ & _ & ?); discriminate.
    + destruct C as (_ & ? & _); discriminate.
  - destruct q; contradiction.
Qed.

(** Every step keeps the session consistent. *)
Lemma step_consistent e s s' :
  consistent s -> step e s = Some s' -> consistent s'.
Proof.
  intros C H. destruct e as [file thr|i url|i|i r|]; simpl in H.
  - destruct (file_input_mounted (state s)) eqn:M; [|discriminate].
    inversion H; subst. now apply handleFileUpload_consistent.
  - destruct (nth_error (pending s) i) as [[f|b|b n]|] eqn:E;
      try discriminate.
    destruct (consistent_pending _ _ _ C E) as (P & ->).
    inversion H; subst; clear H.
    revert C. unfold consistent, commit, remove_nth. rewrite P. simpl.
    intuition.
  - destruct (nth_error (pending s) i) as [[f|b|b n]|] eqn:E;
      try discriminate.
    destruct (consistent_pending _ _ _ C E) as (P & ->).
    inversion H; subst; clear H.
    revert C. unfold consistent, commit, remove_nth. rewrite P. simpl.
    intuition.
  - destruct (nth_error (pending s) i) as [[f|b|b n]|] eqn:E;
      try discriminate;
      destruct (typed (parse_response r)) as [p|]; try discriminate;
      destruct (consistent_pending _ _ _ C E) as (P & ->);
      inversion H; subst; clear H;
      revert C; unfold consistent, commit, remove_nth; rewrite P; simpl;
      destruct p; simpl; intuition (try congruence).
  - inversion H; subst. now apply loadNextPage_consistent.
Qed.

Lemma reachable_consistent s : reachable s -> consistent s.
Proof.
  induction 1 as [|e s s' _ IH H]; [exact consistent_start|].
  eapply step_consistent; eauto.
Qed.

(** Sessions reached by running events from a reachable session. *)
Lemma run_reachable es : forall s s',
  reachable s -> run es s = Some s' -> reachable s'.
Proof.
  induction es as [|e es IH]; simpl; intros s s' R H.
  - now inversion H; subst.
  - destruct (step e s) as [s1|] eqn:E; [|discriminate].
    eapply IH; [|exact H]. eapply reachable_step; eauto.
Qed.

Lemma extends_refl r : extends r r.
Proof. split; [exists []; now rewrite app_nil_r|lia]. Qed.

Lemma extends_trans r1 r2 r3 : extends r1 r2 -> extends r2 r3 -> extends r1 r3.
Proof.
  intros ((a & Ha) & H1) ((b & Hb) & H2). split; [|lia].
  exists (a ++ b). now rewrite Hb, Ha, app_assoc.
Qed.

(** A step that finds a result leaves a result that extends it. *)
Lemma step_extends e s s' r :
  consistent s -> step e s = Some s' -> result (state s) = Some r ->
  exists r', result (state s') = Some r' /\ extends r r'.
Proof.
  intros C H R. destruct e as [file thr|i url|i|i rp|]; simpl in H.
  - destruct (file_input_mounted (state s)) eqn:M; [|discriminate].
    destruct (mounted_idle s C M) as (_ & R' & _). congruence.
  - destruct (nth_error (pending s) i) as [[f|b|b n]|] eqn:E;
      try discriminate.
    destruct (consistent_pending _ _ _ C E) as (P & _).
    unfold consistent in C. rewrite P in C. destruct C as (_ & _ & R').
    congruence.
  - destruct (nth_error (pending s) i) as [[f|b|b n]|] eqn:E;
      try discriminate.
    destruct (consistent_pending _ _ _ C E) as (P & _).
    unfold consistent in C. rewrite P in C. destruct C as (_ & _ & R').
    congruence.
  - destruct (nth_error (pending s) i) as [[f|b|b n]|] eqn:E;
      try discriminate;
      destruct (typed (parse_response rp)) as [p|]; try discriminate;
      destruct (consistent_pending _ _ _ C E) as (P & _);
      unfold consistent in C; rewrite P in C.
    + destruct C as (_ & _ & R'). congruence.
    + destruct C as (_ & _ & _ & r0 & R0 & Hn).
      assert (r0 = r) by congruence. subst r0.
      inversion H; subst s'; clear H. simpl.
      destruct p as [next|err]; simpl; rewrite R.
      * eexists; split; [reflexivity|]. split; simpl; [eauto|lia].
      * eexists; split; [reflexivity|apply extends_refl].
  - inversion H; subst s'; clear H. unfold loadNextPage. rewrite R.
    exists r. split; [|apply extends_refl].
    destruct (currentPdfBase64 (state s)) as [[|c b]|]; simpl; auto.
    destruct (isLoadingNext (state s)); simpl; auto.
Qed.

Lemma run_consistent es : forall s s',
  consistent s -> run es s = Some s' -> consistent s'.
Proof.
  induction es as [|e es IH]; simpl; intros s s' C H.
  - now inversion H; subst.
  - destruct (step e s) as [s1|] eqn:E; [|discriminate].
    eapply IH; [|exact H]. eapply step_consistent; eauto.
Qed.

Lemma run_extends es : forall s s' r,
  consistent s -> run es s = Some s' -> result (state s) = Some r ->
  exists r', result (state s') = Some r' /\ extends r r'.
Proof.
  induction es as [|e es IH]; simpl; intros s s' r C H R.
  - inversion H; subst. exists r. split; [assumption|apply extends_refl].
  - destruct (step e s) as [s1|] eqn:E; [|discriminate].
    destruct (step_extends _ _ _ _ C E R) as (r1 & R1 & X1).
    destruct (IH s1 s' r1 (step_consistent _ _ _ C E) H R1) as (r' & R' & X).
    exists r'. split; [assumption|]. eapply extends_trans; eauto.
Qed.

(** A click that starts nothing leaves the session as it was. *)
Lemma commit_nothing s : commit s (pending s) (state s, []) = s.
Proof.
  unfold commit. simpl. rewrite !app_nil_r. now destruct s.
Qed.

End AppFacts.

(* ================================================================== *)
(** ** The page accumulator *)
(* ================================================================== *)

Import Js Types Gemini App Samples JsFacts AppFacts.

(** C1. For a [previous] whose content has length [m] and a [next] whose
    content has length [n], the merged content has length [m + n] and is
    the content of [previous] followed by the content of [next]: entry
    [i] is entry [i] of [previous] when [i < m] and entry [i - m] of
    [next] otherwise, so each page keeps its own order. *)
Theorem mergePage_content nextPage previous next m n :
  List.length (content previous) = m ->
  List.length (content next) = n ->
  let merged := mergePage nextPage (Some previous) next in
  List.length (content merged) = (m + n)%nat
  /\ content merged = content previous ++ content next
  /\ forall i, nth_error (content merged) i
               = if (i <? m)%nat then nth_error (content previous) i
                 else nth_error (content next) (i - m).
Proof.
  intros Hm Hn merged. subst merged. simpl. repeat split.
  - rewrite length_app. congruence.
  - intros i. destruct (Nat.ltb_spec i m) as [Hlt|Hge].
    + apply nth_error_app1. lia.
    + rewrite <- Hm. apply nth_error_app2. lia.
Qed.

Lemma mergePage_content_witness :
  let merged := mergePage 2 (Some page1) page2 in
  List.length (content merged) = 2%nat
  /\ content merged = content page1 ++ content page2
  /\ forall i, nth_error (content merged) i
               = if (i <? 1)%nat then nth_error (content page1) i
                 else nth_error (content page2) (i - 1).
Proof. exact (mergePage_content 2 page1 page2 1 1 eq_refl eq_refl). Defined.

(** C5. With no previous result the merge is the fetched page itself. *)
Theorem mergePage_absent nextPage next :
  mergePage nextPage None next = next.
Proof. reflexivity. Qed.

(** C9. On a merge the title and the author are those of [next], also
    when [next] has none: what [previous] had is dropped. *)
Theorem mergePage_title_author nextPage previous next :
  let merged := mergePage nextPage (Some previous) next in
  title merged = title next /\ author merged = author next.
Proof. split; reflexivity. Qed.

(** A page without title and author erases those of the page before. *)
Example mergePage_erases_title :
  title titled = Some (jstr "Kitab")
  /\ title (mergePage 2 (Some titled) page2) = None
  /\ author (mergePage 2 (Some titled) page2) = None.
Proof. repeat split. Qed.

(** [loadNextPage] asks for the page after the one of the result. *)
Lemma loadNextPage_starts st r c b :
  result st = Some r -> currentPdfBase64 st = Some (c :: b) ->
  isLoadingNext st = false ->
  loadNextPage st
  = (setIsLoadingNext true st, [NextPage (c :: b) (currentPage r + 1)]).
Proof. unfold loadNextPage. now intros -> -> ->. Qed.

(** When the next page arrives, the result becomes the merge of the
    result and the page, at the page number that was asked for. *)
Lemma next_page_settled_merges s b nextPage reply next :
  nth_error (pending s) 0 = Some (NextPage b nextPage) ->
  typed (parse_response reply) = Some (Resolved next) ->
  exists s', step (Settled 0 reply) s = Some s'
             /\ result (state s')
                = Some (mergePage nextPage (result (state s)) next).
Proof.
  intros P T. unfold step. rewrite P, T. eexists; split; reflexivity.
Qed.

(** In a session that can be reached, the page that is merged when the
    next page arrives is the page after the one of the result. *)
Lemma next_page_merged_after_current s i b nextPage previous reply next :
  reachable s ->
  result (state s) = Some previous ->
  nth_error (pending s) i = Some (NextPage b nextPage) ->
  typed (parse_response reply) = Some (Resolved next) ->
  exists s',
    step (Settled i reply) s = Some s'
    /\ result (state s')
       = Some (mergePage (currentPage previous + 1) (Some previous) next).
Proof.
  intros R Hr P T. pose proof (reachable_consistent s R) as C.
  destruct (consistent_pending _ _ _ C P) as (P1 & ->).
  unfold consistent in C. rewrite P1 in C.
  destruct C as (_ & _ & _ & r & Hr' & ->).
  assert (r = previous) by congruence. subst r.
  destruct (next_page_settled_merges s b _ reply next P T) as (s' & S & M).
  exists s'. split; [exact S|]. now rewrite M, Hr.
Qed.

(** C2, as the code has it. The merged [currentPage] is [nextPage], the
    page number [loadNextPage] asked for, whatever page [next] names;
    the merged [hasMore] is that of [next]. *)
Theorem mergePage_currentPage_hasMore nextPage previous next :
  let merged := mergePage nextPage (Some previous) next in
  currentPage merged = nextPage /\ hasMore merged = hasMore next.
Proof. split; reflexivity. Qed.

(** C2 fails as stated. The first page is shown, the next page is asked
    for and the service answers with a page that calls itself page 5:
    the handlers merge it at page 2, the page that was asked for. *)
Lemma mergePage_currentPage_not_next :
  typed (parse_response reply5) = Some (Resolved page5)
  /\ option_map (fun s => result (state s))
       (run (upload ++ [NextClicked; Settled 0 reply5]) start)
     = Some (Some (mergePage (currentPage page1 + 1) (Some page1) page5))
  /\ ~ (currentPage (mergePage (currentPage page1 + 1) (Some page1) page5)
        = currentPage page5
        /\ hasMore (mergePage (currentPage page1 + 1) (Some page1) page5)
           = hasMore page5).
Proof.
  split; [reflexivity|]. split; [reflexivity|].
  simpl. intros [H _]. discriminate H.
Qed.

(* ================================================================== *)
(** ** The page request client *)
(* ================================================================== *)

(** C3, as the code has it. When [processArabicPdf] returns, what it
    returns is the parse of the text of the service's reply (of the
    text of an empty object when that text is empty or absent): its
    [currentPage] is the one the reply carries. The page number that was
    asked for is in the request only, so two requests that get the same
    reply return the same value. *)
Theorem processArabicPdf_returns_reply ai base64Data pageNumber v :
  processArabicPdf ai base64Data pageNumber = Resolved v ->
  (exists t, ai (request base64Data pageNumber) = Replied t
             /\ JSON_parse (or_default t (jstr "{}")) = Some v)
  /\ forall otherPage,
       ai (request base64Data otherPage)
       = ai (request base64Data pageNumber) ->
       processArabicPdf ai base64Data otherPage = Resolved v.
Proof.
  unfold processArabicPdf, parse_response. intros H. split.
  - destruct (ai (request base64Data pageNumber)) as [|t]; [discriminate|].
    exists t. split; [reflexivity|].
    destruct (JSON_parse (or_default t (jstr "{}"))); [|discriminate].
    now inversion H.
  - intros otherPage E. now rewrite E.
Qed.

Lemma processArabicPdf_returns_reply_witness :
  (exists t, reply7 = Replied t
             /\ JSON_parse (or_default t (jstr "{}"))
                = Some (JObject
                          [(jstr "title", JString (jstr "Kitab"));
                           (jstr "content", JArray []);
                           (jstr "currentPage",
                             JNumber {| mantissa := 7; exp10 := 0 |});
                           (jstr "hasMore", JBool false)]))
  /\ forall otherPage,
       reply7 = reply7 ->
       processArabicPdf (fun _ => reply7) (Some base64) otherPage
       = Resolved (JObject
                     [(jstr "title", JString (jstr "Kitab"));
                      (jstr "content", JArray []);
                      (jstr "currentPage",
                        JNumber {| mantissa := 7; exp10 := 0 |});
                      (jstr "hasMore", JBool false)]).
Proof.
  exact (processArabicPdf_returns_reply (fun _ => reply7) (Some base64) 1 _
           eq_refl).
Defined.

(** C3 fails as stated. Page 1 is asked for and the service answers with
    a well-formed page that calls itself page 7: the call returns it. *)
Lemma processArabicPdf_currentPage_not_requested :
  ~ (forall v r,
       processArabicPdf (fun _ => reply7) (Some base64) 1 = Resolved v ->
       as_ProcessingResult v = Some r ->
       currentPage r = 1).
Proof.
  intros H.
  specialize (H _ {| title := Some (jstr "Kitab"); author := None;
                     content := []; currentPage := 7; hasMore := false |}
                eq_refl eq_refl).
  discriminate H.
Qed.

(** C10. When the text of the reply is absent or empty the call does not
    fail. The text of an empty object is parsed in its place (the empty
    text itself is not JSON), and the object that is returned has no
    [content], no [currentPage] and no [hasMore]: it does not conform to
    the response schema and is not a [ProcessingResult]. *)
Theorem processArabicPdf_empty_reply ai base64Data pageNumber :
  ai (request base64Data pageNumber) = Replied None
  \/ ai (request base64Data pageNumber) = Replied (Some (jstr "")) ->
  exists v,
    processArabicPdf ai base64Data pageNumber = Resolved v
    /\ JSON_parse (jstr "") = None
    /\ JSON_parse (jstr "{}") = Some v
    /\ get "content" v = None
    /\ get "currentPage" v = None
    /\ get "hasMore" v = None
    /\ conforms responseSchema v = false
    /\ as_ProcessingResult v = None.
Proof.
  intros H. exists (JObject []).
  split; [|repeat split].
  unfold processArabicPdf. destruct H as [-> | ->]; reflexivity.
Qed.

Lemma processArabicPdf_empty_reply_witness :
  exists v,
    processArabicPdf (fun _ => reply_empty) (Some base64) 3 = Resolved v
    /\ JSON_parse (jstr "") = None
    /\ JSON_parse (jstr "{}") = Some v
    /\ get "content" v = None
    /\ get "currentPage" v = None
    /\ get "hasMore" v = None
    /\ conforms responseSchema v = false
    /\ as_ProcessingResult v = None.
Proof.
  exact (processArabicPdf_empty_reply (fun _ => reply_empty) (Some base64) 3
           (or_intror eq_refl)).
Defined.

(** The same for a reply without text. *)
Example processArabicPdf_absent_reply :
  processArabicPdf (fun _ => reply_absent) (Some base64) 3
  = Resolved (JObject []).
Proof. reflexivity. Qed.

(** C4, as the code has it. When the text of the reply is not empty and
    is not JSON, [processArabicPdf] fails with the error of its [catch].
    When that happens to a next-page request, the result (and with it
    the accumulated content), the document and the first-load flag stay
    as they were; the error message is set and the next-page flag is
    cleared. *)
Theorem invalid_reply_fails text :
  text <> [] -> JSON_parse text = None ->
  (forall ai base64Data pageNumber,
     ai (request base64Data pageNumber) = Replied (Some text) ->
     processArabicPdf ai base64Data pageNumber = Rejected ResponseParseError)
  /\ forall s i b nextPage,
       nth_error (pending s) i = Some (NextPage b nextPage) ->
       exists s',
         step (Settled i (Replied (Some text))) s = Some s'
         /\ result (state s') = result (state s)
         /\ currentPdfBase64 (state s') = currentPdfBase64 (state s)
         /\ isUploading (state s') = isUploading (state s)
         /\ error (state s') = Some "Failed to load the next page."
         /\ isLoadingNext (state s') = false
         /\ sent s' = sent s.
Proof.
  intros Hne Hp.
  assert (D : or_default (Some text) (jstr "{}") = text)
    by (destruct text; [contradiction|reflexivity]).
  split.
  - intros ai b p E. unfold processArabicPdf, parse_response.
    now rewrite E, D, Hp.
  - intros s i b p E. unfold step, parse_response. rewrite E, D, Hp. simpl.
    eexists. split; [reflexivity|]. simpl. rewrite app_nil_r. tauto.
Qed.

Lemma invalid_reply_fails_witness :
  (forall ai base64Data pageNumber,
     ai (request base64Data pageNumber) = reply_garbage ->
     processArabicPdf ai base64Data pageNumber = Rejected ResponseParseError)
  /\ forall s i b nextPage,
       nth_error (pending s) i = Some (NextPage b nextPage) ->
       exists s',
         step (Settled i reply_garbage) s = Some s'
         /\ result (state s') = result (state s)
         /\ currentPdfBase64 (state s') = currentPdfBase64 (state s)
         /\ isUploading (state s') = isUploading (state s)
         /\ error (state s') = Some "Failed to load the next page."
         /\ isLoadingNext (state s') = false
         /\ sent s' = sent s.
Proof.
  refine (invalid_reply_fails (jstr "Sorry, I cannot") _ eq_refl).
  discriminate.
Defined.

(** C4 fails as stated, twice over. The empty text is not JSON, and the
    call that gets it returns an empty object instead of failing; and
    when a next-page request fails on a reply that is not JSON, the
    session state is not what it was: it carries the error message and
    the next-page flag is cleared. *)
Lemma invalid_reply_not_always_failure :
  ~ (JSON_parse (jstr "") = None ->
     processArabicPdf (fun _ => reply_empty) (Some base64) 2
     = Rejected ResponseParseError)
  /\ ~ (JSON_parse (jstr "Sorry, I cannot") = None ->
        option_map state (run [NextClicked; Settled 0 reply_garbage] showing)
        = Some (state showing)).
Proof.
  split; intros H; specialize (H eq_refl); discriminate H.
Qed.

(* ================================================================== *)
(** ** The session *)
(* ================================================================== *)

(** C6. A file whose declared type is not PDF is refused with a message
    and nothing is started: the handler starts no work, and in the
    session no request is sent to the service and nothing becomes
    pending. *)
Theorem non_pdf_refused f reader_throws :
  type f <> jstr "application/pdf" ->
  (forall st,
     handleFileUpload (Some f) reader_throws st
     = (setError (Some "Please upload a PDF file.") st, []))
  /\ forall s,
       file_input_mounted (state s) = true ->
       step (FileChosen (Some f) reader_throws) s
       = Some {| state := setError (Some "Please upload a PDF file.")
                            (state s);
                 pending := pending s;
                 sent := sent s |}.
Proof.
  intros Ht.
  assert (E : jsstring_eqb (type f) (jstr "application/pdf") = false).
  { destruct (jsstring_eqb (type f) (jstr "application/pdf")) eqn:E;
      [|reflexivity].
    apply jsstring_eqb_eq in E. contradiction. }
  assert (H : forall st,
             handleFileUpload (Some f) reader_throws st
             = (setError (Some "Please upload a PDF file.") st, [])).
  { intros st. unfold handleFileUpload. now rewrite E. }
  split; [exact H|].
  intros s M. unfold step. rewrite M, H. unfold commit. simpl.
  now rewrite !app_nil_r.
Qed.

Lemma non_pdf_refused_witness :
  (forall st,
     handleFileUpload (Some png) false st
     = (setError (Some "Please upload a PDF file.") st, []))
  /\ forall s,
       file_input_mounted (state s) = true ->
       step (FileChosen (Some png) false) s
       = Some {| state := setError (Some "Please upload a PDF file.")
                            (state s);
                 pending := pending s;
                 sent := sent s |}.
Proof.
  refine (non_pdf_refused png false _). discriminate.
Defined.

(** A PDF, by contrast, starts the read, and its first page is then
    asked for. *)
Example pdf_accepted :
  option_map pending (step (FileChosen (Some pdf) false) start)
  = Some [Reading pdf]
  /\ option_map sent
       (run [FileChosen (Some pdf) false; ReaderLoaded 0 dataURL] start)
     = Some [request (Some base64) 1].
Proof. split; reflexivity. Qed.




(** A result shown after the first page grows by the second one. *)
Example second_page_appended :
  option_map (fun s => result (state s))
    (run [NextClicked; Settled 0 reply2] showing)
  = Some (Some {| title := None; author := None;
                  content := [pair alef (jstr "a"); pair beh (jstr "b")];
                  currentPage := 2; hasMore := false |})
  /\ option_map (fun s => next_button_disabled (state s))
       (run [NextClicked; Settled 0 reply2] showing)
     = Some None.
Proof. split; reflexivity. Qed.

(** After a first request that failed, a new PDF can be chosen; the
    document of the failed upload is held until the new file is read. *)
Example upload_after_failure :
  error (state failed) = Some "Failed to process the PDF. Please try again."
  /\ option_map state (step (FileChosen (Some pdf) false) failed)
     = Some (uploading (Some base64))
  /\ option_map state
       (run [FileChosen (Some pdf) false;
             ReaderLoaded 0 (jstr "data:application/pdf;base64,AAAA")]
          failed)
     = Some (uploading (Some (jstr "AAAA"))).
Proof. repeat split. Qed.

(** A click on the next-page button that finds work outstanding, or a
    pending flag set, starts nothing. *)
Lemma loadNextPage_busy s :
  consistent s ->
  pending s <> [] \/ isUploading (state s) = true
  \/ isLoadingNext (state s) = true ->
  loadNextPage (state s) = (state s, []).
Proof.
  unfold consistent, loadNextPage. intros C B.
  destruct (result (state s)) as [r|] eqn:R; [|reflexivity].
  destruct (currentPdfBase64 (state s)) as [[|c b]|]; try reflexivity.
  destruct (isLoadingNext (state s)) eqn:L; [reflexivity|].
  exfalso. destruct (pending s) as [|q [|q' l]].
  - destruct C as (_ & U). destruct B as [B | [B | B]];
      [now apply B | apply U in B; discriminate | discriminate].
  - destruct q.
    + destruct C as (_ & _ & ?); discriminate.
    + destruct C as (_ & _ & ?); discriminate.
    + destruct C as (_ & ? & _); discriminate.
  - destruct q; contradiction.
Qed.

(** C8. In every session that can be reached at most one page fetch is
    outstanding. While one is, and whenever a pending flag is set, the
    next-page action starts nothing and leaves the session as it is; and
    the button is then not there or is disabled. *)
Theorem one_fetch_outstanding s :
  reachable s ->
  (outstanding s <= 1)%nat
  /\ (outstanding s = 1%nat -> step NextClicked s = Some s)
  /\ (isLoadingNext (state s) = true ->
      step NextClicked s = Some s
      /\ next_button_disabled (state s) <> Some false)
  /\ (isUploading (state s) = true ->
      step NextClicked s = Some s
      /\ next_button_disabled (state s) = None).
Proof.
  intros R. pose proof (reachable_consistent s R) as C.
  assert (B : pending s <> [] \/ isUploading (state s) = true
              \/ isLoadingNext (state s) = true ->
              step NextClicked s = Some s).
  { intros B. unfold step. rewrite (loadNextPage_busy s C B).
    now rewrite commit_nothing. }
  split; [|split; [|split]].
  - revert C. unfold consistent, outstanding.
    destruct (pending s) as [|q [|q' l]]; simpl; [lia| |destruct q; tauto].
    destruct q; simpl; lia.
  - intros O. apply B. left. intros E. unfold outstanding in O.
    rewrite E in O. discriminate.
  - intros L. split; [apply B; auto|].
    unfold next_button_disabled.
    destruct (result (state s)) as [r|]; [|discriminate].
    destruct (hasMore r); [|discriminate]. rewrite L. discriminate.
  - intros U. split; [apply B; auto|].
    revert C. unfold consistent, next_button_disabled.
    destruct (pending s) as [|q [|q' l]].
    + intros (_ & Un). now rewrite (Un U).
    + destruct q.
      * intros (_ & _ & ->). reflexivity.
      * intros (_ & _ & ->). reflexivity.
      * intros (Un & _). congruence.
    + destruct q; contradiction.
Qed.

Lemma one_fetch_outstanding_witness :
  (outstanding loading <= 1)%nat
  /\ (outstanding loading = 1%nat -> step NextClicked loading = Some loading)
  /\ (isLoadingNext (state loading) = true ->
      step NextClicked loading = Some loading
      /\ next_button_disabled (state loading) <> Some false)
  /\ (isUploading (state loading) = true ->
      step NextClicked loading = Some loading
      /\ next_button_disabled (state loading) = None).
Proof.
  refine (one_fetch_outstanding loading _).
  apply (run_reachable (upload ++ [NextClicked]) start);
    [apply reachable_start|reflexivity].
Defined.

(** While the second page is on its way one fetch is outstanding, the
    button is disabled, and a second click changes nothing. *)
Example second_click_ignored :
  outstanding loading = 1%nat
  /\ next_button_disabled (state loading) = Some true
  /\ run (upload ++ [NextClicked; NextClicked]) start = Some loading.
Proof. repeat split. Qed.

(* ================================================================== *)
(** ** More about the page request client *)
(* ================================================================== *)

(** The call fails in two ways and no other: the service rejects, and
    the rejection is passed on; or the reply has a text that is not
    empty and is not JSON, and the error of the [catch] is thrown. *)
Theorem processArabicPdf_rejects_iff ai base64Data pageNumber e :
  processArabicPdf ai base64Data pageNumber = Rejected e
  <-> (ai (request base64Data pageNumber) = Threw /\ e = RequestError)
      \/ (exists t, ai (request base64Data pageNumber) = Replied (Some t)
                    /\ t <> [] /\ JSON_parse t = None
                    /\ e = ResponseParseError).
Proof.
  unfold processArabicPdf, parse_response.
  destruct (ai (request base64Data pageNumber)) as [|[t|]].
  - split.
    + intros [= <-]. now left.
    + intros [[_ ->]|(t & H & _)]; [reflexivity|discriminate].
  - destruct t as [|c t].
    + simpl. split; [discriminate|].
      intros [[H _]|(t & H & Hne & _)]; [discriminate|].
      inversion H; subst. contradiction.
    + simpl or_default.
      destruct (JSON_parse (c :: t)) as [v|] eqn:P.
      * split; [discriminate|].
        intros [[H _]|(t' & H & _ & P' & _)]; [discriminate|].
        inversion H; subst. congruence.
      * split.
        -- intros [= <-]. right. exists (c :: t).
           repeat split; [discriminate|assumption].
        -- intros [[H _]|(t' & _ & _ & _ & ->)]; [discriminate|reflexivity].
  - simpl. split; [discriminate|].
    intros [[H _]|(t & H & _)]; discriminate.
Qed.

Lemma skip_ws_blank s : forallb is_ws s = true -> skip_ws s = [].
Proof.
  induction s as [|c s IH]; simpl; [reflexivity|].
  destruct (is_ws c); simpl; [exact IH|discriminate].
Qed.

(** Only the empty text is replaced: a reply of nothing but white space
    is not JSON, and the call fails on it. *)
Theorem blank_reply_fails ai base64Data pageNumber t :
  t <> [] -> forallb is_ws t = true ->
  ai (request base64Data pageNumber) = Replied (Some t) ->
  processArabicPdf ai base64Data pageNumber = Rejected ResponseParseError.
Proof.
  intros Hne Hws E. unfold processArabicPdf, parse_response. rewrite E.
  assert (D : or_default (Some t) (jstr "{}") = t)
    by (destruct t; [contradiction|reflexivity]).
  rewrite D. unfold JSON_parse, fuel_for. rewrite parse_value_S.
  now rewrite (skip_ws_blank t Hws).
Qed.

Lemma blank_reply_fails_witness :
  processArabicPdf (fun _ => Replied (Some (jstr "  "))) (Some base64) 1
  = Rejected ResponseParseError.
Proof.
  refine (blank_reply_fails _ _ _ (jstr "  ") _ eq_refl eq_refl).
  discriminate.
Defined.

Lemma conforms_as_TranslationPair v :
  conforms content_items v = true -> exists p, as_TranslationPair v = Some p.
Proof.
  unfold as_TranslationPair, content_items.
  destruct v as [| | | | |ms]; try discriminate.
  cbn [conforms forallb].
  destruct (get "arabic" (JObject ms)) as [[| | |a| |]|];
    try discriminate;
    destruct (get "english" (JObject ms)) as [[| | |e| |]|];
    try (rewrite ?andb_false_r; discriminate);
    destruct (get "numberPronunciation" (JObject ms)) as [[| | |np| |]|];
    try discriminate; intros _; eexists; reflexivity.
Qed.

Lemma conforms_as_all vs :
  forallb (conforms content_items) vs = true ->
  exists l, as_all as_TranslationPair vs = Some l.
Proof.
  induction vs as [|v vs IH]; simpl; [now exists []|].
  intros H. apply andb_true_iff in H as [Hv Hvs].
  destruct (conforms_as_TranslationPair v Hv) as (p & ->).
  destruct (IH Hvs) as (l & ->). now exists (p :: l).
Qed.

(** The response schema and the interface agree: a JSON value conforms
    to the schema sent with the request exactly when it has the type
    [ProcessingResult] the result is cast to. *)
Theorem schema_agrees_with_type v :
  conforms responseSchema v = true <-> exists r, as_ProcessingResult v = Some r.
Proof.
  split; [|intros (r & H); eapply as_ProcessingResult_conforms; eauto].
  unfold as_ProcessingResult, responseSchema.
  destruct v as [| | | | |ms]; try discriminate.
  cbn [conforms forallb].
  destruct (get "content" (JObject ms)) as [[| | | |items|]|];
    cbn [is_some andb]; try (rewrite ?andb_false_r; discriminate);
    destruct (get "currentPage" (JObject ms)) as [[| |n| | |]|];
    cbn [is_some andb]; try (rewrite ?andb_false_r; discriminate);
    destruct (get "hasMore" (JObject ms)) as [[|h| | | |]|];
    cbn [is_some andb]; try (rewrite ?andb_false_r; discriminate);
    destruct (get "title" (JObject ms)) as [[| | |t| |]|];
    cbn [is_some andb]; try (rewrite ?andb_false_r; discriminate);
    destruct (get "author" (JObject ms)) as [[| | |a| |]|];
    cbn [is_some andb as_optional_string];
    try (rewrite ?andb_false_r; discriminate);
    intros H; rewrite ?andb_true_r in H;
    apply andb_true_iff in H as [Hi Hn];
    destruct (conforms_as_all items Hi) as (l & ->);
    (destruct (jnumber_to_Z n); [|discriminate]);
    eexists; reflexivity.
Qed.

(** The characters of a printed number are digits and the minus sign. *)
Lemma string_of_uint_no_space d :
  Forall (fun c => c <> 32%N) (jstr (NilEmpty.string_of_uint d)).
Proof.
  induction d; simpl; constructor; try assumption; discriminate.
Qed.

Lemma Number_toString_no_space n :
  Forall (fun c => c <> 32%N) (Number_toString n).
Proof.
  unfold Number_toString, NilZero.string_of_int, NilZero.string_of_uint.
  destruct (Z.to_int n) as [d|d].
  - destruct d; try apply string_of_uint_no_space.
    repeat constructor; discriminate.
  - change (Forall (fun c => c <> 32%N)
              (45%N :: jstr match d with
                            | Decimal.Nil => "0"
                            | _ => NilEmpty.string_of_uint d
                            end)).
    constructor; [discriminate|].
    destruct d; try apply string_of_uint_no_space.
    repeat constructor; discriminate.
Qed.

Lemma jstr_inj a b : jstr a = jstr b -> a = b.
Proof.
  unfold jstr. intros H.
  rewrite <- (string_of_list_ascii_of_string a),
          <- (string_of_list_ascii_of_string b).
  f_equal. revert H.
  generalize (list_ascii_of_string a) (list_ascii_of_string b).
  induction l as [|x l IH]; intros [|y l']; simpl; try discriminate; auto.
  intros [= Hx Hl]. f_equal; [|now apply IH].
  rewrite <- (ascii_N_embedding x), <- (ascii_N_embedding y). now f_equal.
Qed.

Lemma Number_toString_inj p q :
  Number_toString p = Number_toString q -> p = q.
Proof.
  unfold Number_toString. intros H. apply jstr_inj in H.
  apply DecimalZ.to_int_inj.
  assert (I : forall z, NilZero.int_of_string
                          (NilZero.string_of_int (Z.to_int z))
                        = Some (Z.to_int z)).
  { intros z. apply NilZero.isi; destruct z; simpl; try discriminate;
      intros [= E]; now apply Unsigned.to_uint_nonnil in E. }
  pose proof (I p) as Ip. rewrite H, I in Ip. now inversion Ip.
Qed.

(** Two texts that agree up to the first space agree before it. *)
Lemma before_space_inj l1 : forall l2 x y,
  Forall (fun c => c <> 32%N) l1 -> Forall (fun c => c <> 32%N) l2 ->
  l1 ++ 32%N :: x = l2 ++ 32%N :: y -> l1 = l2.
Proof.
  induction l1 as [|a l1 IH]; intros [|b l2] x y F1 F2 H; simpl in H.
  - reflexivity.
  - inversion H; subst. inversion F2; subst. contradiction.
  - inversion H; subst. inversion F1; subst. contradiction.
  - inversion H; subst. inversion F1; inversion F2; subst.
    f_equal. eapply IH; eauto.
Qed.

(** Where the prompt names the page. *)
Lemma prompt_names_page pageNumber :
  exists rest,
    skipn 139 (prompt pageNumber) = Number_toString pageNumber ++ 32%N :: rest.
Proof.
  unfold prompt. cbn [unlines]. cbn -[Number_toString Z.add].
  eexists. symmetry. etransitivity; [|apply app_assoc]. reflexivity.
Qed.

(** The request tells which page of which document it is for: two
    requests are equal only if they carry the same document and ask for
    the same page. *)
Theorem request_inj base64Data base64Data' pageNumber pageNumber' :
  request base64Data pageNumber = request base64Data' pageNumber' ->
  base64Data = base64Data' /\ pageNumber = pageNumber'.
Proof.
  intros H.
  assert (Hd : base64Data = base64Data') by exact (f_equal data H).
  assert (Hp : prompt pageNumber = prompt pageNumber')
    by exact (f_equal text H).
  split; [assumption|].
  destruct (prompt_names_page pageNumber) as (r & E).
  destruct (prompt_names_page pageNumber') as (r' & E').
  rewrite Hp, E' in E. apply Number_toString_inj. symmetry.
  eapply before_space_inj; eauto using Number_toString_no_space.
Qed.

Lemma request_inj_witness :
  Some base64 = Some base64 /\ 2 = 2.
Proof. exact (request_inj (Some base64) (Some base64) 2 2 eq_refl). Defined.

(* ================================================================== *)
(** ** More about the session *)
(* ================================================================== *)

Lemma split_no_separator sep s : ~ In sep s -> split sep s = [s].
Proof.
  induction s as [|c s IH]; simpl; intros H; [reflexivity|].
  destruct (N.eqb_spec c sep) as [->|_]; [exfalso; auto|].
  rewrite IH; auto.
Qed.

Lemma split_at_separator sep pre rest :
  ~ In sep pre -> split sep (pre ++ sep :: rest) = pre :: split sep rest.
Proof.
  induction pre as [|c pre IH]; simpl; intros H.
  - now rewrite N.eqb_refl.
  - destruct (N.eqb_spec c sep) as [->|_]; [exfalso; auto|].
    rewrite IH; auto.
Qed.

(** [reader.onload] keeps the payload of the data URL: for a URL made
    of a header, a comma and a payload, neither with a comma in it (the
    base64 alphabet has none), the document that is stored and the one
    the first request carries are the payload. A URL without a comma
    leaves the document [undefined], and the first page is asked for
    all the same. *)
Theorem reader_onload_payload st :
  (forall header payload,
     ~ In 44%N header -> ~ In 44%N payload ->
     reader_onload (header ++ 44%N :: payload) st
     = (setCurrentPdfBase64 (Some payload) st, [FirstPage (Some payload)]))
  /\ forall dataURL,
       ~ In 44%N dataURL ->
       reader_onload dataURL st
       = (setCurrentPdfBase64 None st, [FirstPage None]).
Proof.
  unfold reader_onload. split.
  - intros header payload Hh Hp.
    now rewrite split_at_separator, split_no_separator.
  - intros url H. now rewrite split_no_separator.
Qed.

Lemma reader_onload_payload_witness :
  reader_onload dataURL initial
  = (setCurrentPdfBase64 (Some base64) initial, [FirstPage (Some base64)])
  /\ reader_onload (jstr "data:") initial
     = (setCurrentPdfBase64 None initial, [FirstPage None]).
Proof.
  split.
  - refine (proj1 (reader_onload_payload initial)
              (jstr "data:application/pdf;base64") base64 _ _);
      vm_compute; intuition discriminate.
  - refine (proj2 (reader_onload_payload initial) (jstr "data:") _);
      vm_compute; intuition discriminate.
Defined.

(** While the spinner is shown no error is held. *)
Lemma step_no_error_uploading e s s' :
  consistent s ->
  (isUploading (state s) = true -> error (state s) = None) ->
  step e s = Some s' ->
  isUploading (state s') = true -> error (state s') = None.
Proof.
  intros C I H. destruct e as [file thr|i url|i|i rp|]; simpl in H.
  - destruct (file_input_mounted (state s)) eqn:M; [|discriminate].
    destruct (mounted_idle s C M) as (_ & _ & U & _).
    inversion H; subst s'; clear H. unfold handleFileUpload.
    destruct file as [f|]; simpl; [|congruence].
    destruct (jsstring_eqb (type f) (jstr "application/pdf")); simpl;
      [|congruence].
    destruct thr; simpl; [discriminate|reflexivity].
  - destruct (nth_error (pending s) i) as [[f|b|b n]|]; try discriminate.
    inversion H; subst s'. exact I.
  - destruct (nth_error (pending s) i) as [[f|b|b n]|]; try discriminate.
    inversion H; subst s'. exact I.
  - destruct (nth_error (pending s) i) as [[f|b|b n]|] eqn:E;
      try discriminate;
      destruct (typed (parse_response rp)) as [p|]; try discriminate;
      inversion H; subst s'; clear H; simpl.
    + discriminate.
    + destruct (consistent_pending _ _ _ C E) as (P & _).
      unfold consistent in C. rewrite P in C. destruct C as (U & _).
      destruct p; simpl; congruence.
  - inversion H; subst s'; clear H. unfold loadNextPage.
    destruct (result (state s)) as [r|]; [|exact I].
    destruct (currentPdfBase64 (state s)) as [[|c b]|]; try exact I.
    destruct (isLoadingNext (state s)); exact I.
Qed.

Lemma reachable_no_error_uploading s :
  reachable s -> isUploading (state s) = true -> error (state s) = None.
Proof.
  induction 1 as [|e s s' R IH H]; [discriminate|].
  eapply step_no_error_uploading; eauto using reachable_consistent.
Qed.

(** In every session of [reachable], that is as long as every reply
    that parses has the shape of a [ProcessingResult], exactly one of
    the three blocks of the page is shown: the spinner never comes with
    the document. While the spinner is shown no error is held, so a
    message that is set is always on the page. (A reply of another
    shape is stored unchecked by the code and can make the render
    throw; such sessions are not among those of [reachable].) *)
Theorem one_block_shown s :
  reachable s ->
  blocks_shown (state s) = 1%nat
  /\ (spinner_shown (state s) = true ->
      result (state s) = None /\ error (state s) = None)
  /\ forall m, error (state s) = Some m -> m <> "" ->
               error_shown (state s) = Some m.
Proof.
  intros R. pose proof (reachable_consistent s R) as C.
  pose proof (reachable_no_error_uploading s R) as E.
  assert (U : isUploading (state s) = true -> result (state s) = None).
  { revert C. unfold consistent.
    destruct (pending s) as [|q [|q' l]]; [tauto| |destruct q; tauto].
    destruct q; [tauto|tauto|]. intros (F & _) T. congruence. }
  unfold blocks_shown, error_shown, landing_shown, spinner_shown,
    result_shown.
  split; [|split].
  - destruct (isUploading (state s)).
    + now rewrite (U eq_refl).
    + now destruct (result (state s)).
  - intros T. split; auto.
  - intros m Hm Hne. destruct (isUploading (state s)).
    + rewrite (E eq_refl) in Hm. discriminate.
    + rewrite Hm. destruct (result (state s)); simpl;
        destruct m; try reflexivity; contradiction.
Qed.

Lemma one_block_shown_witness :
  blocks_shown (state failed) = 1%nat
  /\ (spinner_shown (state failed) = true ->
      result (state failed) = None /\ error (state failed) = None)
  /\ forall m, error (state failed) = Some m -> m <> "" ->
               error_shown (state failed) = Some m.
Proof.
  refine (one_block_shown failed _).
  apply (run_reachable
           [FileChosen (Some pdf) false; ReaderLoaded 0 dataURL;
            Settled 0 Threw] start);
    [apply reachable_start|reflexivity].
Defined.

(** When the first request fails, whether the service rejected it or
    its reply was not JSON, the landing block is back with one and the
    same message, the file input is there to try again, and nothing is
    outstanding. *)
Theorem first_page_failure s i b rp e :
  reachable s ->
  nth_error (pending s) i = Some (FirstPage b) ->
  parse_response rp = Rejected e ->
  exists s',
    step (Settled i rp) s = Some s'
    /\ state s'
       = {| isUploading := false; isLoadingNext := false; result := None;
            currentPdfBase64 := currentPdfBase64 (state s);
            error := Some "Failed to process the PDF. Please try again." |}
    /\ pending s' = [] /\ sent s' = sent s
    /\ landing_shown (state s') = true
    /\ file_input_mounted (state s') = true.
Proof.
  intros R P E. pose proof (reachable_consistent s R) as C.
  destruct (consistent_pending _ _ _ C P) as (P1 & ->).
  unfold consistent in C. rewrite P1 in C. destruct C as (_ & L & Rn).
  unfold step. rewrite P, E. simpl. eexists. split; [reflexivity|].
  unfold commit, remove_nth, first_page_settled, setIsUploading, setError,
    landing_shown, file_input_mounted. simpl.
  rewrite P1, L, Rn. simpl. repeat split. apply app_nil_r.
Qed.

Lemma first_page_failure_witness :
  exists s',
    step (Settled 0 reply_garbage) requested = Some s'
    /\ state s'
       = {| isUploading := false; isLoadingNext := false; result := None;
            currentPdfBase64 := currentPdfBase64 (state requested);
            error := Some "Failed to process the PDF. Please try again." |}
    /\ pending s' = [] /\ sent s' = sent requested
    /\ landing_shown (state s') = true
    /\ file_input_mounted (state s') = true.
Proof.
  refine (first_page_failure requested 0 (Some base64) reply_garbage
            ResponseParseError _ eq_refl eq_refl).
  apply (run_reachable
           [FileChosen (Some pdf) false; ReaderLoaded 0 dataURL] start);
    [apply reachable_start|reflexivity].
Defined.

(** A session in which the spinner is shown and nothing is outstanding
    does not move. *)
Lemma stuck_step e s s' :
  pending s = [] -> isUploading (state s) = true ->
  result (state s) = None ->
  step e s = Some s' -> s' = s.
Proof.
  intros P U Rn H. destruct e as [file thr|i url|i|i rp|]; simpl in H.
  - unfold file_input_mounted in H. rewrite U, andb_false_r in H.
    discriminate.
  - rewrite P in H. destruct i; discriminate.
  - rewrite P in H. destruct i; discriminate.
  - rewrite P in H. destruct i; discriminate.
  - unfold loadNextPage in H. rewrite Rn in H. inversion H.
    apply commit_nothing.
Qed.

(** The reader has no error handler. When the read of an accepted file
    fails, the spinner stays for good: whatever happens afterwards, the
    session is the same, with the first-load flag set, no result and
    no message. *)
Theorem read_failure_stuck s i s1 :
  reachable s ->
  step (ReaderFailed i) s = Some s1 ->
  spinner_shown (state s1) = true
  /\ result (state s1) = None
  /\ error (state s1) = None
  /\ pending s1 = []
  /\ forall es s2, run es s1 = Some s2 -> s2 = s1.
Proof.
  intros R H. pose proof (reachable_consistent s R) as C.
  pose proof (reachable_no_error_uploading s R) as E.
  simpl in H.
  destruct (nth_error (pending s) i) as [[f|b|b n]|] eqn:P;
    try discriminate.
  destruct (consistent_pending _ _ _ C P) as (P1 & ->).
  unfold consistent in C. rewrite P1 in C. destruct C as (U & _ & Rn).
  inversion H; subst s1; clear H.
  unfold commit, remove_nth, spinner_shown. rewrite P1. simpl.
  split; [assumption|]. split; [assumption|]. split; [auto|].
  split; [reflexivity|].
  intros es. induction es as [|e es IH]; simpl; intros s2 H.
  - now inversion H.
  - match type of H with
    | match step e ?x with _ => _ end = _ =>
        destruct (step e x) as [s'|] eqn:S; [|discriminate];
        apply stuck_step in S; auto
    end.
    subst s'. now apply IH.
Qed.

Lemma read_failure_stuck_witness :
  spinner_shown (state (commit chosen [] (state chosen, []))) = true
  /\ result (state (commit chosen [] (state chosen, []))) = None
  /\ error (state (commit chosen [] (state chosen, []))) = None
  /\ pending (commit chosen [] (state chosen, [])) = []
  /\ forall es s2,
       run es (commit chosen [] (state chosen, [])) = Some s2 ->
       s2 = commit chosen [] (state chosen, []).
Proof.
  refine (read_failure_stuck chosen 0 _ _ eq_refl).
  apply (run_reachable [FileChosen (Some pdf) false] start);
    [apply reachable_start|reflexivity].
Defined.

(** What a step can do once a result is there: the document stays, the
    message stays or becomes the next-page message, and at most one
    request is sent, for the document that is held. *)
Lemma step_after_result e s s' r :
  consistent s -> result (state s) = Some r -> step e s = Some s' ->
  currentPdfBase64 (state s') = currentPdfBase64 (state s)
  /\ (error (state s') = error (state s)
      \/ error (state s') = Some "Failed to load the next page.")
  /\ (sent s' = sent s
      \/ exists p, sent s'
                   = sent s ++ [request (currentPdfBase64 (state s)) p]).
Proof.
  intros C R H. destruct e as [file thr|i url|i|i rp|]; simpl in H.
  - destruct (file_input_mounted (state s)) eqn:M; [|discriminate].
    destruct (mounted_idle s C M) as (_ & R' & _). congruence.
  - destruct (nth_error (pending s) i) as [[f|b|b n]|] eqn:E;
      try discriminate.
    destruct (consistent_pending _ _ _ C E) as (P & _).
    unfold consistent in C. rewrite P in C. destruct C as (_ & _ & R').
    congruence.
  - destruct (nth_error (pending s) i) as [[f|b|b n]|] eqn:E;
      try discriminate.
    destruct (consistent_pending _ _ _ C E) as (P & _).
    unfold consistent in C. rewrite P in C. destruct C as (_ & _ & R').
    congruence.
  - destruct (nth_error (pending s) i) as [[f|b|b n]|] eqn:E;
      try discriminate;
      destruct (typed (parse_response rp)) as [p|]; try discriminate;
      destruct (consistent_pending _ _ _ C E) as (P & _);
      unfold consistent in C; rewrite P in C.
    + destruct C as (_ & _ & R'). congruence.
    + inversion H; subst s'; clear H. simpl. rewrite app_nil_r.
      destruct p; simpl; auto.
  - inversion H; subst s'; clear H. unfold loadNextPage. rewrite R.
    destruct (currentPdfBase64 (state s)) as [[|c b]|] eqn:B; simpl;
      rewrite ?app_nil_r, ?B; auto.
    destruct (isLoadingNext (state s)); simpl; rewrite ?app_nil_r, ?B; auto.
    repeat split; eauto.
Qed.

(** Once a result is shown no file can be chosen any more: the file
    input is rendered on the landing block only, and the landing block
    does not come back, so the header button finds no input to click. *)
Theorem no_upload_after_result s r :
  reachable s -> result (state s) = Some r ->
  forall es s', run es s = Some s' ->
    landing_shown (state s') = false
    /\ forall file reader_throws,
         step (FileChosen file reader_throws) s' = None.
Proof.
  intros R Hr es s' H.
  destruct (run_extends es s s' r (reachable_consistent s R) H Hr)
    as (r' & Hr' & _).
  unfold landing_shown, step, file_input_mounted. rewrite Hr'. simpl. auto.
Qed.

Lemma no_upload_after_result_witness :
  landing_shown (state finished) = false
  /\ forall file reader_throws,
       step (FileChosen file reader_throws) finished = None.
Proof.
  refine (no_upload_after_result showing page1 _ eq_refl
            [NextClicked; Settled 0 reply2] finished eq_refl).
  apply (run_reachable upload start); [apply reachable_start|reflexivity].
Defined.

(** Once a result is shown the document is never replaced, and every
    request sent from then on carries it: all the pages of a result
    come from one document. *)
Theorem document_fixed_after_result s r :
  reachable s -> result (state s) = Some r ->
  forall es s', run es s = Some s' ->
    currentPdfBase64 (state s') = currentPdfBase64 (state s)
    /\ exists more,
         sent s' = sent s ++ more
         /\ Forall (fun q => data q = currentPdfBase64 (state s)) more.
Proof.
  intros R Hr es. pose proof (reachable_consistent s R) as C.
  clear R. revert s r C Hr.
  induction es as [|e es IH]; simpl; intros s r C Hr s' H.
  - inversion H; subst. split; [reflexivity|].
    exists []. now rewrite app_nil_r.
  - destruct (step e s) as [s1|] eqn:S; [|discriminate].
    destruct (step_after_result _ _ _ _ C Hr S) as (D & _ & Q).
    destruct (step_extends _ _ _ _ C S Hr) as (r1 & Hr1 & _).
    destruct (IH s1 r1 (step_consistent _ _ _ C S) Hr1 s' H)
      as (D' & more & Hs & F).
    rewrite D in D', F. split; [assumption|].
    destruct Q as [Q|(p & Q)]; rewrite Q in Hs.
    + exists more. auto.
    + exists (request (currentPdfBase64 (state s)) p :: more).
      rewrite Hs, <- app_assoc. split; [reflexivity|].
      constructor; [reflexivity|assumption].
Qed.

Lemma document_fixed_after_result_witness :
  currentPdfBase64 (state finished) = currentPdfBase64 (state showing)
  /\ exists more,
       sent finished = sent showing ++ more
       /\ Forall (fun q => data q = currentPdfBase64 (state showing)) more.
Proof.
  refine (document_fixed_after_result showing page1 _ eq_refl
            [NextClicked; Settled 0 reply2] finished eq_refl).
  apply (run_reachable upload start); [apply reachable_start|reflexivity].
Defined.

(** [loadNextPage] never clears the message. A message that is on the
    page with a result stays there, or is replaced by the next-page
    message: also a page that arrives afterwards does not remove it. *)
Theorem error_never_cleared s r m :
  reachable s -> result (state s) = Some r -> error (state s) = Some m ->
  forall es s', run es s = Some s' ->
    error (state s') = Some m
    \/ error (state s') = Some "Failed to load the next page.".
Proof.
  intros R Hr Hm es. pose proof (reachable_consistent s R) as C.
  assert (G : error (state s) = Some m
              \/ error (state s) = Some "Failed to load the next page.")
    by auto.
  clear R Hm. revert s r C Hr G.
  induction es as [|e es IH]; simpl; intros s r C Hr G s' H.
  - now inversion H; subst.
  - destruct (step e s) as [s1|] eqn:S; [|discriminate].
    destruct (step_after_result _ _ _ _ C Hr S) as (_ & E & _).
    destruct (step_extends _ _ _ _ C S Hr) as (r1 & Hr1 & _).
    apply (IH s1 r1 (step_consistent _ _ _ C S) Hr1); [|assumption].
    destruct E as [E|E]; [rewrite E; assumption|auto].
Qed.

Lemma error_never_cleared_witness :
  error (state recovered) = Some "Failed to load the next page."
  \/ error (state recovered) = Some "Failed to load the next page.".
Proof.
  refine (error_never_cleared failed_next page1 _ _ eq_refl eq_refl
            [NextClicked; Settled 0 reply2] recovered eq_refl).
  apply (run_reachable (upload ++ [NextClicked; Settled 0 Threw]) start);
    [apply reachable_start|reflexivity].
Defined.

(** A page that arrives after a failure leaves the message in place. *)
Example message_survives_next_page :
  option_map (fun s => (error (state s),
                        option_map currentPage (result (state s))))
    (run (upload ++ [NextClicked; Settled 0 Threw;
                     NextClicked; Settled 0 reply2]) start)
  = Some (Some "Failed to load the next page.", Some 2).
Proof. reflexivity. Qed.

Lemma last_cons_default {A : Type} (l : list A) : forall a x y,
  last (a :: l) x = last (a :: l) y.
Proof.
  induction l as [|b l IH]; intros a x y; [reflexivity|].
  change (last (b :: l) x = last (b :: l) y). apply IH.
Qed.

Lemma run_app es1 es2 : forall s,
  run (es1 ++ es2) s
  = match run es1 s with
    | Some s1 => run es2 s1
    | None => None
    end.
Proof.
  induction es1 as [|e es1 IH]; simpl; intros s; [reflexivity|].
  destruct (step e s); auto.
Qed.

(** One page is asked for and arrives. *)
Lemma load_one s r c b reply d :
  pending s = [] -> isLoadingNext (state s) = false ->
  result (state s) = Some r -> currentPdfBase64 (state s) = Some (c :: b) ->
  typed (parse_response reply) = Some (Resolved d) ->
  exists s',
    run [NextClicked; Settled 0 reply] s = Some s'
    /\ pending s' = [] /\ isLoadingNext (state s') = false
    /\ result (state s')
       = Some (mergePage (currentPage r + 1) (Some r) d)
    /\ currentPdfBase64 (state s') = Some (c :: b)
    /\ sent s' = sent s ++ [request (Some (c :: b)) (currentPage r + 1)].
Proof.
  intros P L R B T.
  assert (S1 : step NextClicked s
               = Some (commit s []
                         (setIsLoadingNext true (state s),
                          [NextPage (c :: b) (currentPage r + 1)]))).
  { unfold step. now rewrite (loadNextPage_starts _ r c b R B L), P. }
  set (s0 := commit s []
               (setIsLoadingNext true (state s),
                [NextPage (c :: b) (currentPage r + 1)])) in S1.
  assert (S2 : step (Settled 0 reply) s0
               = Some (commit s0 []
                         (next_page_settled (currentPage r + 1)
                            (Resolved d) (state s0), []))).
  { unfold step. simpl. now rewrite T. }
  eexists. split; [cbn [run]; rewrite S1; cbn [run]; now rewrite S2|].
  simpl. rewrite R, B, app_nil_r. repeat split.
Qed.

(** Pages that arrive one after the other are merged in that order. A
    session that shows a result and has nothing outstanding asks for
    the next page and gets it, once for each reply: the content is the
    content it had followed by that of the pages in turn, the page
    number has gone up by one for each page, whatever numbers the pages
    carry themselves, and the requests that were sent ask for the
    consecutive pages of the one document. The page numbers are
    JavaScript numbers: this is for page numbers that stay safe
    integers, on which the additions of the code are exact. *)
Theorem pages_load_in_sequence replies : forall pages s r c b,
  pending s = [] -> isLoadingNext (state s) = false ->
  result (state s) = Some r -> currentPdfBase64 (state s) = Some (c :: b) ->
  - 2 ^ 53 < currentPage r ->
  currentPage r + Z.of_nat (List.length pages) + 1 < 2 ^ 53 ->
  Forall2 (fun reply d => typed (parse_response reply) = Some (Resolved d))
          replies pages ->
  exists s' r',
    run (load replies) s = Some s'
    /\ result (state s') = Some r' /\ pending s' = []
    /\ content r' = content r ++ List.concat (map content pages)
    /\ currentPage r' = currentPage r + Z.of_nat (List.length pages)
    /\ hasMore r' = hasMore (last pages r)
    /\ sent s'
       = sent s ++ next_requests (c :: b) (currentPage r) (List.length pages).
Proof.
  induction replies as [|reply replies IH];
    intros pages s r c b P L Hr B Lo Hi F.
  - inversion F; subst. exists s, r. simpl.
    rewrite !app_nil_r, Z.add_0_r. repeat split; auto.
  - inversion F as [|? d ? pages' T F']; subst.
    destruct (load_one s r c b reply d P L Hr B T)
      as (s1 & R1 & P1 & L1 & Hr1 & B1 & Q1).
    destruct (IH pages' s1 _ c b P1 L1 Hr1 B1) as
      (s' & r' & R' & Hr' & P' & Hc & Hp & Hm & Q');
      [simpl; lia|simpl in Hi |- *; lia|exact F'|].
    exists s', r'. split.
    { change (load (reply :: replies))
        with ([NextClicked; Settled 0 reply] ++ load replies).
      now rewrite run_app, R1. }
    split; [assumption|]. split; [assumption|].
    simpl in Hc, Hp, Hm. repeat split.
    + rewrite Hc. simpl. now rewrite app_assoc.
    + rewrite Hp. simpl List.length. lia.
    + rewrite Hm. destruct pages' as [|p pages']; [reflexivity|].
      change (last (d :: p :: pages') r) with (last (p :: pages') r).
      f_equal. apply last_cons_default.
    + rewrite Q', Q1, <- app_assoc. f_equal. unfold next_requests.
      simpl List.length. cbn [seq map].
      replace (currentPage r + Z.of_nat 1) with (currentPage r + 1) by lia.
      cbn [app]. f_equal.
      rewrite <- (seq_shift _ 1), map_map. apply map_ext. intros k.
      f_equal. simpl currentPage. lia.
Qed.

Lemma pages_load_in_sequence_witness :
  exists s' r',
    run (load [reply5; reply2]) showing = Some s'
    /\ result (state s') = Some r' /\ pending s' = []
    /\ content r' = content page1 ++ List.concat (map content [page5; page2])
    /\ currentPage r' = currentPage page1 + Z.of_nat 2
    /\ hasMore r' = hasMore (last [page5; page2] page1)
    /\ sent s' = sent showing ++ next_requests base64 (currentPage page1) 2.
Proof.
  refine (pages_load_in_sequence [reply5; reply2] [page5; page2] showing
            page1 74%N (tl base64) eq_refl eq_refl eq_refl eq_refl
            eq_refl eq_refl _).
  repeat constructor.
Defined.



(** Every fetch that is outstanding is the request sent last. *)
Lemma requests_of_app ps qs :
  requests_of (ps ++ qs) = requests_of ps ++ requests_of qs.
Proof.
  induction ps as [|p ps IH]; simpl; [reflexivity|].
  destruct (request_of p); simpl; now rewrite IH.
Qed.

Lemma step_logged e s s' :
  consistent s ->
  (exists pre, sent s = pre ++ requests_of (pending s)) ->
  step e s = Some s' ->
  exists pre, sent s' = pre ++ requests_of (pending s').
Proof.
  intros C (pre & Q) H.
  assert (K : forall st started,
             exists pre', sent (commit s (pending s) (st, started))
                          = pre' ++ requests_of
                                      (pending (commit s (pending s)
                                                  (st, started)))).
  { intros st started. exists pre. unfold commit. simpl.
    now rewrite requests_of_app, Q, app_assoc. }
  assert (D : forall i p st started,
             nth_error (pending s) i = Some p ->
             exists pre', sent (commit s (remove_nth i (pending s))
                                  (st, started))
                          = pre' ++ requests_of
                                      (pending (commit s
                                                  (remove_nth i (pending s))
                                                  (st, started)))).
  { intros i p st started E.
    destruct (consistent_pending _ _ _ C E) as (P & ->).
    exists (sent s). unfold commit, remove_nth. rewrite P. reflexivity. }
  destruct e as [file thr|i url|i|i rp|]; simpl in H.
  - destruct (file_input_mounted (state s)); [|discriminate].
    inversion H; subst s'.
    destruct (handleFileUpload file thr (state s)) as [st started].
    apply K.
  - destruct (nth_error (pending s) i) as [[f|b|b n]|] eqn:E;
      try discriminate.
    inversion H; subst s'. unfold reader_onload. eapply D; eauto.
  - destruct (nth_error (pending s) i) as [[f|b|b n]|] eqn:E;
      try discriminate.
    inversion H; subst s'. eapply D; eauto.
  - destruct (nth_error (pending s) i) as [[f|b|b n]|] eqn:E;
      try discriminate;
      destruct (typed (parse_response rp)) as [p|]; try discriminate;
      inversion H; subst s'; eapply D; eauto.
  - inversion H; subst s'.
    destruct (loadNextPage (state s)) as [st started]. apply K.
Qed.

Lemma reachable_logged s :
  reachable s -> exists pre, sent s = pre ++ requests_of (pending s).
Proof.
  induction 1 as [|e s s' R IH H]; [now exists []|].
  eapply step_logged; eauto using reachable_consistent.
Qed.

Lemma safe_step_step e s s' : safe_step e s = Some s' -> step e s = Some s'.
Proof.
  unfold safe_step. destruct (step e s) as [s1|]; [|discriminate].
  destruct (pages_safe s1); [auto|discriminate].
Qed.

Lemma safe_reachable_reachable s : safe_reachable s -> reachable s.
Proof.
  induction 1 as [|e s s' _ IH H]; [apply reachable_start|].
  eapply reachable_step; eauto using safe_step_step.
Qed.

Lemma safe_run_reachable es : forall s s',
  safe_reachable s -> safe_run es s = Some s' -> safe_reachable s'.
Proof.
  induction es as [|e es IH]; simpl; intros s s' R H.
  - now inversion H; subst.
  - destruct (safe_step e s) as [s1|] eqn:E; [|discriminate].
    eapply IH; [|exact H]. eapply safe_reachable_step; eauto.
Qed.

Lemma safe_reachable_pages_safe s : safe_reachable s -> pages_safe s = true.
Proof.
  induction 1 as [|e s s' _ _ H]; [reflexivity|].
  unfold safe_step in H. destruct (step e s) as [s1|]; [|discriminate].
  destruct (pages_safe s1) eqn:E; [|discriminate]. now inversion H; subst.
Qed.

(** The next-page flag tells the truth. In every session that is reached
    with safe page numbers all along (on which the additions of the
    code are those of this model) the flag is set exactly when a
    next-page request is outstanding; that request is then the last one
    sent, carries the document that is held, and asks for the page
    after the one of the result, which is the page the button names
    while it is loading. *)
Theorem loading_flag_truthful s :
  safe_reachable s ->
  (isLoadingNext (state s) = true
   <-> exists b p, pending s = [NextPage b p])
  /\ forall b p,
       pending s = [NextPage b p] ->
       currentPdfBase64 (state s) = Some b
       /\ (exists r, result (state s) = Some r /\ p = currentPage r + 1
                     /\ safe_page (currentPage r) = true)
       /\ exists earlier, sent s = earlier ++ [request (Some b) p].
Proof.
  intros Rs. pose proof (safe_reachable_pages_safe s Rs) as Sf.
  unfold pages_safe in Sf. pose proof (safe_reachable_reachable s Rs) as R.
  pose proof (reachable_consistent s R) as C.
  destruct (reachable_logged s R) as (pre & Q).
  revert C Q. unfold consistent.
  destruct (pending s) as [|q [|q' l]]; [| |destruct q; tauto].
  - intros (L & _) _. split.
    + split; [congruence|]. intros (b & p & H). discriminate.
    + intros b p H. discriminate.
  - destruct q as [f|d|d n].
    + intros (_ & L & _) _. split.
      * split; [congruence|]. intros (b & p & H). discriminate.
      * intros b p H. discriminate.
    + intros (_ & L & _) _. split.
      * split; [congruence|]. intros (b & p & H). discriminate.
      * intros b p H. discriminate.
    + intros (_ & L & B & r & Hr & Hp) Q. rewrite Hr in Sf. split.
      * split; eauto.
      * intros b p [= <- <-]. repeat split; eauto.
Qed.

Lemma loading_flag_truthful_witness :
  (isLoadingNext (state loading) = true
   <-> exists b p, pending loading = [NextPage b p])
  /\ forall b p,
       pending loading = [NextPage b p] ->
       currentPdfBase64 (state loading) = Some b
       /\ (exists r, result (state loading) = Some r
                     /\ p = currentPage r + 1
                     /\ safe_page (currentPage r) = true)
       /\ exists earlier, sent loading = earlier ++ [request (Some b) p].
Proof.
  refine (loading_flag_truthful loading _).
  apply (safe_run_reachable (upload ++ [NextClicked]) start);
    [apply safe_reachable_start|reflexivity].
Defined.

(* ================================================================== *)
(** ** The session as the page lets it run *)
(* ================================================================== *)

Lemma ui_step_step e s s' : ui_step e s = Some s' -> step e s = Some s'.
Proof.
  destruct e; simpl; auto.
  destruct (clickable (state s)); [auto|discriminate].
Qed.

Lemma ui_reachable_reachable s : ui_reachable s -> reachable s.
Proof.
  induction 1 as [|e s s' _ IH H]; [apply reachable_start|].
  eapply reachable_step; eauto using ui_step_step.
Qed.

Lemma ui_run_reachable es : forall s s',
  ui_reachable s -> ui_run es s = Some s' -> ui_reachable s'.
Proof.
  induction es as [|e es IH]; simpl; intros s s' R H.
  - now inversion H; subst.
  - destruct (ui_step e s) as [s1|] eqn:E; [|discriminate].
    eapply IH; [|exact H]. eapply ui_reachable_step; eauto.
Qed.

Lemma clickable_spec st :
  clickable st = true ->
  isLoadingNext st = false
  /\ exists r, result st = Some r /\ hasMore r = true.
Proof.
  unfold clickable, next_button_disabled.
  destruct (result st) as [r|]; [|discriminate].
  destruct (hasMore r) eqn:M; [|discriminate].
  destruct (isLoadingNext st); [discriminate|]. eauto.
Qed.

(** A next page is loaded only for a result that has more pages. *)
Lemma ui_step_loading_has_more e s s' :
  consistent s ->
  (isLoadingNext (state s) = true ->
   exists r, result (state s) = Some r /\ hasMore r = true) ->
  ui_step e s = Some s' ->
  isLoadingNext (state s') = true ->
  exists r, result (state s') = Some r /\ hasMore r = true.
Proof.
  intros C I H. destruct e as [file thr|i url|i|i rp|]; simpl in H.
  - destruct (file_input_mounted (state s)) eqn:M; [|discriminate].
    destruct (mounted_idle s C M) as (_ & _ & _ & L).
    inversion H; subst s'; clear H. unfold handleFileUpload.
    destruct file as [f|]; simpl; [|congruence].
    destruct (jsstring_eqb (type f) (jstr "application/pdf")); simpl;
      [|congruence].
    destruct thr; simpl; congruence.
  - destruct (nth_error (pending s) i) as [[f|b|b n]|]; try discriminate.
    inversion H; subst s'. exact I.
  - destruct (nth_error (pending s) i) as [[f|b|b n]|]; try discriminate.
    inversion H; subst s'. exact I.
  - destruct (nth_error (pending s) i) as [[f|b|b n]|] eqn:E;
      try discriminate;
      destruct (typed (parse_response rp)) as [p|]; try discriminate;
      inversion H; subst s'; clear H; simpl.
    + destruct (consistent_pending _ _ _ C E) as (P & _).
      unfold consistent in C. rewrite P in C. destruct C as (_ & L & _).
      destruct p; simpl; congruence.
    + discriminate.
  - destruct (clickable (state s)) eqn:K; [|discriminate].
    destruct (clickable_spec _ K) as (L & r & Hr & M).
    inversion H; subst s'; clear H. intros _. exists r.
    unfold loadNextPage. rewrite Hr, L.
    destruct (currentPdfBase64 (state s)) as [[|c b]|]; simpl; auto.
Qed.

Lemma ui_reachable_loading_has_more s :
  ui_reachable s -> isLoadingNext (state s) = true ->
  exists r, result (state s) = Some r /\ hasMore r = true.
Proof.
  induction 1 as [|e s s' R IH H]; [discriminate|].
  eapply ui_step_loading_has_more; eauto.
  apply reachable_consistent, ui_reachable_reachable, R.
Qed.

(** The end of the document is final. Once the result says that there is
    no further page nothing is outstanding, the button is gone and no
    file can be chosen: the page lets nothing happen any more, and no
    request is sent again. *)
Theorem end_of_document_final s r :
  ui_reachable s -> result (state s) = Some r -> hasMore r = false ->
  pending s = []
  /\ next_button_disabled (state s) = None
  /\ forall e, ui_step e s = None.
Proof.
  intros U Hr M. pose proof (ui_reachable_reachable s U) as R.
  pose proof (reachable_consistent s R) as C.
  pose proof (ui_reachable_loading_has_more s U) as I.
  assert (P : pending s = []).
  { revert C. unfold consistent.
    destruct (pending s) as [|q [|q' l]]; [reflexivity| |destruct q; tauto].
    destruct q.
    - intros (_ & _ & ?); congruence.
    - intros (_ & _ & ?); congruence.
    - intros (_ & L & _). destruct (I L) as (r' & Hr' & M'). congruence. }
  assert (B : next_button_disabled (state s) = None).
  { unfold next_button_disabled. now rewrite Hr, M. }
  split; [assumption|]. split; [assumption|].
  intros [file thr|i url|i|i rp|]; simpl.
  - unfold file_input_mounted. now rewrite Hr.
  - rewrite P. now destruct i.
  - rewrite P. now destruct i.
  - rewrite P. now destruct i.
  - unfold clickable. now rewrite B.
Qed.

Lemma end_of_document_final_witness :
  pending finished = []
  /\ next_button_disabled (state finished) = None
  /\ forall e, ui_step e finished = None.
Proof.
  refine (end_of_document_final finished _ _ eq_refl eq_refl).
  apply (ui_run_reachable (upload ++ [NextClicked; Settled 0 reply2]) start);
    [apply ui_reachable_start|reflexivity].
Defined.

(** A document that is [undefined] or empty makes a dead button. When
    the data URL of an accepted file has no comma, or nothing between
    its first comma and the next, the first page is asked for all the
    same; if it arrives and has more pages, the button is there and
    enabled, and a click on it does nothing: no request is sent. *)
Theorem empty_document_dead_button s f dataURL rp d :
  reachable s -> file_input_mounted (state s) = true ->
  type f = jstr "application/pdf" ->
  nth_error (split 44 dataURL) 1 = None
  \/ nth_error (split 44 dataURL) 1 = Some [] ->
  typed (parse_response rp) = Some (Resolved d) -> hasMore d = true ->
  exists s',
    run [FileChosen (Some f) false; ReaderLoaded 0 dataURL; Settled 0 rp] s
    = Some s'
    /\ sent s' = sent s ++ [request (nth_error (split 44 dataURL) 1) 1]
    /\ result (state s') = Some d
    /\ next_button_disabled (state s') = Some false
    /\ ui_step NextClicked s' = Some s'.
Proof.
  intros R M Ht Hd T Hm. pose proof (reachable_consistent s R) as C.
  destruct (mounted_idle s C M) as (P & Rn & U & L).
  set (doc := nth_error (split 44 dataURL) 1) in *.
  set (s1 := commit s []
               (setResult (fun _ => None)
                  (setError None (setIsUploading true (state s))),
                [Reading f])).
  assert (S1 : step (FileChosen (Some f) false) s = Some s1).
  { unfold step. rewrite M. unfold handleFileUpload.
    now rewrite Ht, jsstring_eqb_refl, P. }
  set (s2 := commit s1 [] (reader_onload dataURL (state s1))).
  assert (S2 : step (ReaderLoaded 0 dataURL) s1 = Some s2) by reflexivity.
  set (s3 := commit s2 [] (first_page_settled (Resolved d) (state s2), [])).
  assert (S3 : step (Settled 0 rp) s2 = Some s3).
  { unfold step. simpl. now rewrite T. }
  exists s3.
  split; [cbn [run]; rewrite S1; cbn [run]; rewrite S2; cbn [run];
          now rewrite S3|].
  split; [simpl; now rewrite !app_nil_r|].
  split; [reflexivity|].
  assert (B : next_button_disabled (state s3) = Some false).
  { unfold next_button_disabled. simpl. now rewrite Hm, L. }
  split; [exact B|].
  unfold ui_step, clickable. rewrite B. unfold step, loadNextPage.
  replace (currentPdfBase64 (state s3)) with doc by reflexivity.
  destruct Hd as [-> | ->]; simpl result; cbv iota; apply f_equal,
    commit_nothing.
Qed.

Lemma empty_document_dead_button_witness :
  exists s',
    run [FileChosen (Some pdf) false; ReaderLoaded 0 (jstr "data:");
         Settled 0 reply1] start
    = Some s'
    /\ sent s' = sent start ++ [request (nth_error (split 44 (jstr "data:")) 1) 1]
    /\ result (state s') = Some page1
    /\ next_button_disabled (state s') = Some false
    /\ ui_step NextClicked s' = Some s'.
Proof.
  exact (empty_document_dead_button start pdf (jstr "data:") reply1 page1
           reachable_start eq_refl eq_refl (or_introl eq_refl) eq_refl
           eq_refl).
Defined.
